(** * haze: request templating and response classification

    A shallow embedding of the Go packages [reportable], [matchlang] and
    [http] of haze, with the parts of Go's [strings], [bytes] and [strconv]
    they call, and the properties of the specification proved over it.

    Conventions of the embedding:
    - a Go [string] and a [[]byte] are both a [string] (a sequence of
      bytes); the program never writes through a [[]byte], so a slice is
      modelled by its contents;
    - a Go [int] is a [Z]; the only place where its width matters is
      [strconv.Atoi], which saturates at the bounds of a 64-bit [int];
    - a run-time panic is the [Panic] outcome of the [result] type;
    - a Go [map[string]string] is a reference into a store of maps, so that
      two requests sharing a map are told apart from two requests holding
      equal maps. *)

From Stdlib Require Import ZArith Ascii String DecimalString Permutation.
From Stdlib Require DecimalPos DecimalZ.
From stdpp Require Import gmap strings list.

Local Open Scope string_scope.
Local Open Scope list_scope.
Local Open Scope Z_scope.

(** ** Outcomes of code that may panic *)

Inductive panic :=
| IndexOutOfRange (i : Z) (len : nat)
| SliceBoundsOutOfRange (i : Z) (len : nat)
| NilMapAssignment.

Inductive result (A : Type) :=
| Ok (a : A)
| Panic (p : panic).
Arguments Ok {A} a.
Arguments Panic {A} p.

#[global] Instance result_ret : MRet result := fun A a => Ok a.
#[global] Instance result_bind : MBind result := fun A B f x =>
  match x with
  | Ok a => f a
  | Panic p => Panic p
  end.

(** [l[i]] of Go: a panic when [i] is not an index of [l]. *)
Definition index {A} (l : list A) (i : Z) : result A :=
  if i <? 0 then Panic (IndexOutOfRange i (length l))
  else match l !! Z.to_nat i with
       | Some a => Ok a
       | None => Panic (IndexOutOfRange i (length l))
       end.

(** ** Go's [strings] and [bytes] *)

Module GoStrings.

Definition len (s : string) : Z := Z.of_nat (String.length s).

Fixpoint take (n : nat) (s : string) : string :=
  match n, s with
  | S n', String c s' => String c (take n' s')
  | _, _ => EmptyString
  end.

Fixpoint drop (n : nat) (s : string) : string :=
  match n, s with
  | S n', String _ s' => drop n' s'
  | _, _ => s
  end.

(** [c] does not occur in [s]. *)
Fixpoint free_of (c : ascii) (s : string) : bool :=
  match s with
  | EmptyString => true
  | String a s' => negb (Ascii.eqb c a) && free_of c s'
  end.

(** [s[i:]], with the bounds check of a slice expression. *)
Definition slice_from (s : string) (i : Z) : result string :=
  if (i <? 0) || (len s <? i) then Panic (SliceBoundsOutOfRange i (String.length s))
  else Ok (drop (Z.to_nat i) s).

Fixpoint HasPrefix (s prefix : string) {struct prefix} : bool :=
  match prefix with
  | EmptyString => true
  | String a prefix' =>
      match s with
      | EmptyString => false
      | String b s' => if Ascii.eqb a b then HasPrefix s' prefix' else false
      end
  end.

(** Offset of the first occurrence of [substr] in [s]. *)
Fixpoint find (s substr : string) : option nat :=
  if HasPrefix s substr then Some O
  else match s with
       | EmptyString => None
       | String _ s' => option_map S (find s' substr)
       end.

(** [strings.Index] and [bytes.Index]: -1 when [substr] does not occur. *)
Definition Index (s substr : string) : Z :=
  match find s substr with
  | Some i => Z.of_nat i
  | None => -1
  end.

(** The loop of [genSplit]: cut at the next separator, at most [k] times. *)
Fixpoint split_loop (k : nat) (s sep : string) : list string :=
  match k with
  | O => [s]
  | S k' =>
      match find s sep with
      | None => [s]
      | Some m => take m s :: split_loop k' (drop (m + String.length sep) s) sep
      end
  end.

(** With an empty separator Go splits after each UTF-8 sequence; the
    program only ever passes the separator constants [","], ["-"], [" "],
    ["="], [":"], ["; "] and CRLF, and this branch cuts after each byte. *)
Fixpoint explode (k : nat) (s : string) : list string :=
  match k, s with
  | S k', String c (String _ _ as s') => String c EmptyString :: explode k' s'
  | _, _ => [s]
  end.

(** [strings.SplitN] and [bytes.SplitN]. *)
Definition SplitN (s sep : string) (n : Z) : list string :=
  if n =? 0 then []
  else
    let k := if n <? 0 then String.length s
             else Nat.min (Z.to_nat (n - 1)) (String.length s) in
    match sep with
    | EmptyString => match s with EmptyString => [] | _ => explode k s end
    | _ => split_loop k s sep
    end.

(** [strings.Split] and [bytes.Split]. *)
Definition Split (s sep : string) : list string := SplitN s sep (-1).

Fixpoint replace_loop (k : nat) (s old new : string) : string :=
  match k with
  | O => s
  | S k' =>
      match find s old with
      | None => s
      | Some j => take j s +:+ new +:+ replace_loop k' (drop (j + String.length old) s) old new
      end
  end.

(** An empty [old] matches before each UTF-8 sequence and at the end; each
    byte counts as one sequence here. *)
Fixpoint replace_empty (k : nat) (s new : string) : string :=
  match k with
  | O => s
  | S k' =>
      new +:+ match s with
             | EmptyString => EmptyString
             | String c s' => String c (replace_empty k' s' new)
             end
  end.

(** [strings.Replace]: the first [n] occurrences, all of them when [n < 0]. *)
Definition Replace (s old new : string) (n : Z) : string :=
  if String.eqb old new || (n =? 0) then s
  else
    match old with
    | EmptyString =>
        let m := S (String.length s) in
        replace_empty (if n <? 0 then m else Nat.min (Z.to_nat n) m) s new
    | _ =>
        replace_loop (if n <? 0 then String.length s else Z.to_nat n) s old new
    end.

Definition bytes_of (l : list nat) : string :=
  string_of_list_ascii (map ascii_of_nat l).

(** The white space of [unicode.IsSpace], as UTF-8 byte sequences: tab,
    LF, VT, FF, CR, space, U+0085, U+00A0, U+1680, U+2000 to U+200A,
    U+2028, U+2029, U+202F, U+205F and U+3000. *)
Definition white_space : list string :=
  map bytes_of
    ([[9]; [10]; [11]; [12]; [13]; [32]; [194; 133]; [194; 160]; [225; 154; 128]]
     ++ map (fun b => [226; 128; b]) [128; 129; 130; 131; 132; 133; 134; 135; 136; 137; 138]
     ++ [[226; 128; 168]; [226; 128; 169]; [226; 128; 175]; [226; 129; 159]; [227; 128; 128]])%nat.

Definition srev (s : string) : string :=
  string_of_list_ascii (rev (list_ascii_of_string s)).

Fixpoint trim_left (k : nat) (ws : list string) (s : string) : string :=
  match k with
  | O => s
  | S k' =>
      match List.find (HasPrefix s) ws with
      | Some w => trim_left k' ws (drop (String.length w) s)
      | None => s
      end
  end.

(** [strings.TrimSpace]. *)
Definition TrimSpace (s : string) : string :=
  let l := trim_left (String.length s) white_space s in
  srev (trim_left (String.length l) (map srev white_space) (srev l)).

Fixpoint repeat_loop (n : nat) (s : string) : string :=
  match n with
  | O => EmptyString
  | S n' => s +:+ repeat_loop n' s
  end.

(** [strings.Repeat]: nothing stands for its panic on a negative count. *)
Definition Repeat (s : string) (count : Z) : option string :=
  if count <? 0 then None else Some (repeat_loop (Z.to_nat count) s).

End GoStrings.

(** ** Go's [strconv] *)

Module GoStrconv.

Inductive NumError := ErrSyntax | ErrRange.

Definition maxInt : Z := 9223372036854775807.
Definition minInt : Z := -9223372036854775808.

Definition digit (c : ascii) : option Z :=
  let n := Z.of_nat (nat_of_ascii c) in
  if (48 <=? n) && (n <=? 57) then Some (n - 48) else None.

(** The digit loop: [n = n*10 + d] for each byte, or nothing at the first
    byte that is not a decimal digit. *)
Fixpoint digits (s : string) (acc : Z) : option Z :=
  match s with
  | EmptyString => Some acc
  | String c s' =>
      match digit c with
      | Some d => digits s' (acc * 10 + d)
      | None => None
      end
  end.

(** [ParseUint] in base 10: nothing (a syntax error) on the empty string
    and on a byte that is not a digit. *)
Definition ParseUint (s : string) : option Z :=
  match s with
  | EmptyString => None
  | _ => digits s 0
  end.

(** The bounds of [ParseInt]: the nearest bound and [ErrRange] for a value
    that does not fit a 64-bit [int]. *)
Definition in_range (v : Z) : Z * option NumError :=
  if maxInt <? v then (maxInt, Some ErrRange)
  else if v <? minInt then (minInt, Some ErrRange)
  else (v, None).

(** [strconv.Atoi], that is [ParseInt(s, 10, 0)] on a 64-bit [int]: an
    optional sign and at least one decimal digit; 0 with [ErrSyntax]
    otherwise; the nearest bound with [ErrRange] when the value does not
    fit. *)
Definition Atoi (s : string) : Z * option NumError :=
  let '(neg, body) :=
    match s with
    | String "-" s' => (true, s')
    | String "+" s' => (false, s')
    | _ => (false, s)
    end in
  match ParseUint body with
  | None => (0, Some ErrSyntax)
  | Some n => in_range (if neg : bool then - n else n)
  end.

(** What the specification calls a numeric component: an optional sign and
    then one decimal digit or more. *)
Definition is_digit (c : ascii) : bool :=
  let n := nat_of_ascii c in ((48 <=? n) && (n <=? 57))%nat.

Fixpoint all_digits (s : string) : bool :=
  match s with
  | EmptyString => true
  | String c s' => is_digit c && all_digits s'
  end.

Definition unsigned_numeric (s : string) : bool :=
  match s with
  | EmptyString => false
  | _ => all_digits s
  end.

Definition numeric (s : string) : bool :=
  match s with
  | String "-" s' => unsigned_numeric s'
  | String "+" s' => unsigned_numeric s'
  | _ => unsigned_numeric s
  end.

(** [strconv.Itoa]: the decimal form of an [int]. *)
Definition Itoa (z : Z) : string := NilZero.string_of_int (Z.to_int z).

End GoStrconv.

(** ** Package [cliargs]: the arguments *)

Module cliargs.

(** The declaration of [Args] is not among the sources; these are the
    fields that the sources read, with the types that their uses give
    them. *)
Record Args := {
  Host : string;
  RequestFiles : list string;
  ProbeOnly : bool;
  Threads : Z;
  MatchCodes : string;
  MatchLengths : string
}.

(** *** The table of the settings

    What is printed is the list of the lines given to [fmt.Println], in
    their order. *)

Definition keyLen : Z := 18.

Inductive failure :=
| NegativeRepeatCount
| Runtime (p : panic).

Definition Println (line : string) (out : list string) : list string := out ++ [line].

Definition PrintBanner (out : list string) : list string :=
  let out := Println "               .**.        " out in
  let out := Println "            .. haze ..     " out in
  Println "               `**`        " out.

Record entry := { key : string; val : string }.

(** The first loop of [printTable]: the lines and the length of the
    longest one, or the panic of [strings.Repeat]. *)
Fixpoint table_loop (es : list entry) (max : Z) (lns : list string)
  : failure + (Z * list string) :=
  match es with
  | [] => inr (max, lns)
  | e :: es' =>
      let ln := "  " +:+ key e in
      match GoStrings.Repeat " " (keyLen - GoStrings.len ln) with
      | None => inl NegativeRepeatCount
      | Some pad =>
          let ln := ln +:+ pad in
          let ln := ln +:+ (":  " +:+ val e) in
          let lns := lns ++ [ln] in
          let max := if GoStrings.len ln >? max then GoStrings.len ln else max in
          table_loop es' max lns
      end
  end.

Definition printTable (es : list entry) (out : list string)
  : list string * option failure :=
  match table_loop es 0 [] with
  | inl f => (out, Some f)
  | inr (max, lns) =>
      match GoStrings.Repeat "-" (max + 2) with
      | None => (out, Some NegativeRepeatCount)
      | Some bar =>
          let out := Println bar out in
          let out := foldl (fun out ln => Println ln out) out lns in
          let out := Println bar out in
          (Println EmptyString out, None)
      end
  end.

(** A row of the table in one piece, for keys of 16 bytes at most; the
    bar over and under rows. *)
Definition row (e : entry) : string :=
  "  " +:+ key e +:+ GoStrings.repeat_loop (16 - String.length (key e)) " "
  +:+ ":  " +:+ val e.

Definition fits (e : entry) : bool := (String.length (key e) <=? 16)%nat.

Definition bar_of (lns : list string) : string :=
  GoStrings.repeat_loop (max_list (String.length <$> lns) + 2) "-".

Definition PrintInfo (args : Args) (reportDir : string) (out : list string)
  : list string * option failure :=
  let out := PrintBanner out in
  match index (RequestFiles args) 0 with
  | Panic p => (out, Some (Runtime p))
  | Ok file =>
      let entries := [ {| key := "Target"; val := Host args |};
                       {| key := "Request file"; val := file |} ] in
      let entries :=
        if negb (String.eqb reportDir EmptyString)
        then entries ++ [ {| key := "Report dir"; val := reportDir |} ]
        else entries in
      let entries :=
        if negb (ProbeOnly args)
        then entries ++ [ {| key := "Threads"; val := GoStrconv.Itoa (Threads args) |} ]
        else entries in
      printTable entries out
  end.

End cliargs.

(** ** Package [http]: the response summary *)

Record Response := { Code : Z; Length : Z; Raw : string }.

(** ** Package [reportable] *)

Module reportable.
Import GoStrings GoStrconv.

Definition Matcher := Response -> bool.
Definition Filter := Response -> bool.

Record Range := { From : Z; To : Z }.

Fixpoint isValueInRanges (ranges : list Range) (val : Z) : bool :=
  match ranges with
  | [] => false
  | ran :: ranges' =>
      if (val >=? From ran) && (val <=? To ran) then true
      else isValueInRanges ranges' val
  end.

Definition parseRange (val : string) : result Range :=
  let splitted := Split val "-" in
  s0 ← index splitted 0;
  let From_ := fst (Atoi s0) in
  if (Z.of_nat (length splitted) =? 2) then
    s1 ← index splitted 1;
    Ok {| From := From_; To := fst (Atoi s1) |}
  else
    Ok {| From := From_; To := From_ |}.

Fixpoint parseRanges_loop (toks : list string) (ranges : list Range) : result (list Range) :=
  match toks with
  | [] => Ok ranges
  | ran :: toks' =>
      r ← parseRange ran;
      parseRanges_loop toks' (ranges ++ [r])
  end.

Definition parseRanges (val : string) : result (list Range) :=
  parseRanges_loop (Split val ",") [].

Definition MatchCodes (codes : string) : result Matcher :=
  ranges ← parseRanges codes;
  Ok (fun res => isValueInRanges ranges (Code res)).

(** [int(res.Length)] is the identity: [Length] is an [int64] and [int] has
    64 bits. *)
Definition MatchLengths (lens : string) : result Matcher :=
  ranges ← parseRanges lens;
  Ok (fun res => isValueInRanges ranges (Length res)).

Definition FilterCodes (codes : string) : result Filter :=
  ranges ← parseRanges codes;
  Ok (fun res => negb (isValueInRanges ranges (Code res))).

Definition FilterLengths (lens : string) : result Filter :=
  ranges ← parseRanges lens;
  Ok (fun res => negb (isValueInRanges ranges (Length res))).

(** The first loop of [IsReportable]: [matched] after the scan, which
    breaks at the first matcher that accepts. *)
Fixpoint scan_matchers (res : Response) (matchers : list Matcher) (matched : bool) : bool :=
  match matchers with
  | [] => matched
  | matcher :: matchers' =>
      if matcher res then true else scan_matchers res matchers' matched
  end.

(** The second loop: [filtered] after the scan, which breaks at the first
    filter that rejects. *)
Fixpoint scan_filters (res : Response) (filters : list Filter) (filtered : bool) : bool :=
  match filters with
  | [] => filtered
  | filter :: filters' =>
      if negb (filter res) then false else scan_filters res filters' filtered
  end.

Definition IsReportable (res : Response) (matchers : list Matcher) (filters : list Filter) : bool :=
  let matched := scan_matchers res matchers false in
  let filtered := scan_filters res filters true in
  filtered && (matched || (Z.of_nat (length matchers) =? 0)).

Definition FromArgs (args : cliargs.Args) : result (list Matcher) :=
  let result_ : list Matcher := [] in
  codes ← MatchCodes (cliargs.MatchCodes args);
  let result_ := result_ ++ [codes] in
  if negb (String.eqb (cliargs.MatchLengths args) "") then
    lens ← MatchLengths (cliargs.MatchLengths args);
    Ok (result_ ++ [lens])
  else Ok result_.

(** [strings.Split] at a one-byte separator, by recursion on the string:
    the pieces between the occurrences of [c]. *)
Fixpoint pieces (c : ascii) (s : string) : list string :=
  match s with
  | EmptyString => [EmptyString]
  | String a s' =>
      if Ascii.eqb c a then EmptyString :: pieces c s'
      else match pieces c s' with
           | piece :: rest => String a piece :: rest
           | [] => [String a EmptyString]
           end
  end.

End reportable.



(** ** Package [matchlang] *)

Module matchlang.

(** Modelled from the spec: the lexer ([lex], [LexToken] and the token
    types) is not among the sources. The parser names the token types
    [CodeToken], [SizeToken], [TextToken], [EqualsToken] and
    [NotEqualsToken] and reads the fields [Type] and [Value] of a token; the
    specification adds literals and the logical AND keyword. *)
Inductive LexTokenType :=
| CodeToken
| SizeToken
| TextToken
| EqualsToken
| NotEqualsToken
| LiteralToken
| AndToken.

Record LexToken := { Type_ : LexTokenType; Value : string }.

Definition token (type : LexTokenType) (value : string) : LexToken :=
  {| Type_ := type; Value := value |}.

(** [OperatorEnum] is an [int]: [lexTokenToOperator] answers -1, which is
    none of its constants, on a token that is no comparison operator. *)
Definition OperatorEnum := Z.
Definition EqualsOperator : OperatorEnum := 0.
Definition NotEqualsOperator : OperatorEnum := 1.

Definition LogicalOperatorEnum := Z.
Definition AndOperator : LogicalOperatorEnum := 0.

Inductive IdentifierEnum :=
| CodeIdentifier
| SizeIdentifier
| TextIdentifier.

(** [Ast] is the empty interface; its values in this package are [nilast]
    and the four node structs. *)
Inductive Ast :=
| nilast
| Comparison (Operator : OperatorEnum) (Left Right : Ast)
| Identifier (Value : IdentifierEnum)
| Literal (Value : string)
| LogicalExpression (Operator : LogicalOperatorEnum) (Left Right : Ast).

Definition lexTokenToOperator (token : LexToken) : OperatorEnum :=
  match Type_ token with
  | EqualsToken => EqualsOperator
  | NotEqualsToken => NotEqualsOperator
  | _ => -1
  end.

Definition lexTokenToIdentifier (token : LexToken) : Ast :=
  let idtype :=
    match Type_ token with
    | CodeToken => CodeIdentifier
    | SizeToken => SizeIdentifier
    | TextToken => TextIdentifier
    | _ => CodeIdentifier
    end in
  Identifier idtype.

Inductive ParserState :=
| ParserConsumingState
| ParserConsumedLeftState
| ParserConsumedOperatorState
| ParserConsumedRightState
| ParserConsumedLogicalOperatorState
| ParserDoneState.

Record Parser := {
  tokens : list LexToken;
  pos : Z;
  state : ParserState;
  ast : Ast
}.

Definition with_state (p : Parser) (st : ParserState) : Parser :=
  {| tokens := tokens p; pos := pos p; state := st; ast := ast p |}.

Definition with_ast (p : Parser) (a : Ast) : Parser :=
  {| tokens := tokens p; pos := pos p; state := state p; ast := a |}.

Definition with_pos (p : Parser) (i : Z) : Parser :=
  {| tokens := tokens p; pos := i; state := state p; ast := ast p |}.

(** The [switch] of [consume]: the parser after the case of its state. The
    two states without a case leave it as it is. *)
Definition consume_switch (p : Parser) : result Parser :=
  match state p with
  | ParserConsumingState => Ok (with_state p ParserConsumedLeftState)
  | ParserConsumedLeftState => Ok (with_state p ParserConsumedOperatorState)
  | ParserConsumedOperatorState => Ok (with_state p ParserConsumedRightState)
  | ParserConsumedRightState =>
      let p1 :=
        if pos p <? Z.of_nat (length (tokens p)) - 1
        then with_state p ParserConsumingState
        else with_state p ParserDoneState in
      left ← index (tokens p1) (pos p1 - 3);
      operator ← index (tokens p1) (pos p1 - 2);
      right ← index (tokens p1) (pos p1 - 1);
      Ok (with_ast p1 (Comparison (lexTokenToOperator operator)
                                  (lexTokenToIdentifier left)
                                  (Literal (Value right))))
  | ParserConsumedLogicalOperatorState => Ok p
  | ParserDoneState => Ok p
  end.

(** [consume]: the parser after the call, with the boolean it returns. *)
Definition consume (p : Parser) : result (bool * Parser) :=
  match state p with
  | ParserDoneState => Ok (false, p)
  | _ =>
      p1 ← consume_switch p;
      Ok (true, with_pos p1 (pos p1 + 1))
  end.

(** [for parser.consume() {}]: the parser when [consume] answers false, or
    nothing when [fuel] calls were not enough. *)
Fixpoint consume_loop (fuel : nat) (p : Parser) : option (result Parser) :=
  match fuel with
  | O => None
  | S fuel' =>
      match consume p with
      | Panic e => Some (Panic e)
      | Ok (false, p') => Some (Ok p')
      | Ok (true, p') => consume_loop fuel' p'
      end
  end.

Definition new_parser (toks : list LexToken) : Parser :=
  {| tokens := toks; pos := 0; state := ParserConsumingState; ast := nilast |}.

(** [Parse] after the lexer: [4 * length toks + 5] calls of [consume] are
    enough for every token list ([parse_tokens_total]). *)
Definition parse_tokens (toks : list LexToken) : option (result Ast) :=
  match consume_loop (4 * length toks + 5) (new_parser toks) with
  | Some (Ok p) => Some (Ok (ast p))
  | Some (Panic e) => Some (Panic e)
  | None => None
  end.

Section WithLexer.

(** The lexer of the package, which is not among the sources. *)
Variable lex : string -> list LexToken.

Definition Parse (s : string) : option (result Ast) := parse_tokens (lex s).

End WithLexer.

(** Calls of [consume] that are left, at most, before the loop ends. *)
Definition calls_left (p : Parser) : nat :=
  let rest := (4 * Z.to_nat (Z.of_nat (length (tokens p)) - pos p))%nat in
  match state p with
  | ParserConsumingState => rest + 5
  | ParserConsumedLeftState => rest + 4
  | ParserConsumedOperatorState => rest + 3
  | ParserConsumedRightState => rest + 2
  | ParserConsumedLogicalOperatorState => 0
  | ParserDoneState => 1
  end%nat.

(** No [LogicalExpression] node anywhere in an AST. *)
Fixpoint no_logical (a : Ast) : bool :=
  match a with
  | nilast | Identifier _ | Literal _ => true
  | Comparison _ l r => no_logical l && no_logical r
  | LogicalExpression _ _ _ => false
  end.

(** The parser states that a sequence of [consume] calls reaches from the
    parser [Parse] starts with. *)
Inductive reachable (toks : list LexToken) : Parser -> Prop :=
| reach_new : reachable toks (new_parser toks)
| reach_consume p b p' :
    reachable toks p -> consume p = Ok (b, p') -> reachable toks p'.

(** What holds of every parser state that [Parse] can be in. *)
Definition parser_invariant (toks : list LexToken) (p : Parser) : Prop :=
  tokens p = toks
  /\ state p <> ParserConsumedLogicalOperatorState
  /\ (ast p = nilast \/ exists op id lit, ast p = Comparison op (Identifier id) (Literal lit))
  /\ (state p = ParserDoneState ->
      exists op id lit, ast p = Comparison op (Identifier id) (Literal lit))
  /\ match state p with
     | ParserConsumingState => pos p mod 4 = 0
     | ParserConsumedLeftState => pos p mod 4 = 1
     | ParserConsumedOperatorState => pos p mod 4 = 2
     | ParserConsumedRightState => pos p mod 4 = 3
     | _ => True
     end.

(** [n] calls of [consume] in a row. *)
Fixpoint consume_n (n : nat) (p : Parser) : result Parser :=
  match n with
  | O => Ok p
  | S n' => '(_, p') ← consume p; consume_n n' p'
  end.

(** A token list of comparisons: each group is a triple followed by the one
    token that separates it from the next comparison, and the list ends
    with a triple. *)
Definition triple : Type := LexToken * LexToken * LexToken.

Definition comparison_of (t : triple) : Ast :=
  let '(identifier, operator, literal) := t in
  Comparison (lexTokenToOperator operator)
             (lexTokenToIdentifier identifier)
             (Literal (Value literal)).

Definition triple_tokens (t : triple) : list LexToken :=
  let '(identifier, operator, literal) := t in [identifier; operator; literal].

Fixpoint joined (groups : list (triple * LexToken)) (final : triple) : list LexToken :=
  match groups with
  | [] => triple_tokens final
  | (t, sep) :: groups' => triple_tokens t ++ sep :: joined groups' final
  end.

(** The same triples with nothing between them. *)
Definition adjacent (triples : list triple) : list LexToken :=
  concat (map triple_tokens triples).

(** *** The state machine read as groups of four

    What the loop of [Parse] comes to, written by recursion on the token
    list: the tokens go by four, three for a comparison and one after it;
    the comparison of the last group is the result, and a last group of
    fewer than three tokens is an index out of range at the first position
    that is missing. [offset] is the position of the first token of [toks]
    in the whole list, of length [total]. *)
Fixpoint last_group (offset total : nat) (toks : list LexToken) : result Ast :=
  match toks with
  | _ :: _ :: _ :: _ :: (_ :: _) as rest => last_group (offset + 4) total rest
  | identifier :: operator :: literal :: _ =>
      Ok (comparison_of (identifier, operator, literal))
  | _ => Panic (IndexOutOfRange (Z.of_nat (offset + length toks)) total)
  end.

(** The AST of the parser that the loop ends with. *)
Definition ast_of (run : option (result Parser)) : option (result Ast) :=
  match run with
  | Some (Ok p) => Some (Ok (ast p))
  | Some (Panic e) => Some (Panic e)
  | None => None
  end.

End matchlang.

(** ** Package [http] *)

Module http.
Import GoStrings.

Definition crlf : string :=
  String (ascii_of_nat 13) (String (ascii_of_nat 10) EmptyString).

Definition twoRns : string := crlf +:+ crlf.

(** The double-quote byte. *)
Definition dquote : string := String (ascii_of_nat 34) EmptyString.

(** *** The store of maps

    A [map[string]string] value is [nil] or a reference to a map of the
    store; [make] takes a reference that the store does not use yet. *)

Abbreviation loc := positive.
Abbreviation mapref := (option positive).

Abbreviation store := (gmap positive (gmap string string)).

Record Request := {
  Method : string;
  RequestUri : string;
  Path : string;
  Query : string;
  ProtocolVersion : string;
  Headers : mapref;
  Cookies : mapref;
  Body : string
}.

(** Code that reads and writes the store and may panic; the store is kept
    as the panic found it. *)
Definition M (A : Type) : Type := store -> result A * store.

#[global] Instance M_ret : MRet M := fun A a h => (Ok a, h).
#[global] Instance M_bind : MBind M := fun A B f m h =>
  match m h with
  | (Ok a, h') => f a h'
  | (Panic e, h') => (Panic e, h')
  end.

Definition lift {A} (x : result A) : M A := fun h => (x, h).

(** The map a reference stands for; a [nil] map reads as the empty map. *)
Definition contents (h : store) (m : mapref) : gmap string string :=
  match m with
  | Some l => match h !! l with Some x => x | None => ∅ end
  | None => ∅
  end.

(** [make(map[string]string)]. *)
Definition make : M mapref := fun h =>
  let l := fresh (dom h) in (Ok (Some l), <[l := ∅]> h).

(** [v, ok := m[k]]. *)
Definition map_get (m : mapref) (k : string) : M (option string) := fun h =>
  (Ok (contents h m !! k), h).

(** [m[k] = v]: a panic on a [nil] map. *)
Definition map_set (m : mapref) (k v : string) : M unit := fun h =>
  match m with
  | Some l => (Ok (), <[l := <[k := v]> (contents h m)]> h)
  | None => (Panic NilMapAssignment, h)
  end.

(** [delete(m, k)]: nothing on a [nil] map. *)
Definition map_delete (m : mapref) (k : string) : M unit := fun h =>
  match m with
  | Some l => (Ok (), <[l := delete k (contents h m)]> h)
  | None => (Ok (), h)
  end.

(** The entries a [range] over the map visits, in some order. *)
Definition map_entries (m : mapref) : M (list (string * string)) := fun h =>
  (Ok (map_to_list (contents h m)), h).

(** *** Parsing *)

Definition parseRequestLine (requestLine : string) : result (string * string * string) :=
  let spaceSplitted := Split requestLine " " in
  method ← index spaceSplitted 0;
  requestUri ← index spaceSplitted 1;
  protocolVersion ← index spaceSplitted 2;
  Ok (method, requestUri, protocolVersion).

(** [requestUri[:i]] and [requestUri[i+1:]] are in range when [i] is the
    index of "?" ([find_bound]). *)
Definition parseRequestUri (requestUri : string) : string * string :=
  let i := Index requestUri "?" in
  if i >? 0 then (take (Z.to_nat i) requestUri, drop (Z.to_nat (i + 1)) requestUri)
  else (requestUri, EmptyString).

Definition parseHeader (rawHeader : string) : result (string * string) :=
  let colonSplitted := SplitN rawHeader ":" 2 in
  name ← index colonSplitted 0;
  val ← index colonSplitted 1;
  Ok (name, TrimSpace val).

(** The loop of [parseHeaders], which breaks at the first empty line. *)
Fixpoint parseHeaders_loop (lines : list string) (headers : mapref) : M unit :=
  match lines with
  | [] => mret ()
  | rawHeader :: lines' =>
      if len rawHeader =? 0 then mret ()
      else
        '(name, val) ← lift (parseHeader rawHeader);
        map_set headers name val;;
        parseHeaders_loop lines' headers
  end.

(** [bytes.Split] returns one element at least ([Split_nonempty]), so the
    slice [[1:]] of its result is its tail. *)
Definition parseHeaders (rawReq : string) : M mapref :=
  headers ← make;
  parseHeaders_loop (tail (Split rawReq crlf)) headers;;
  mret headers.

Definition extractBody (raw : string) : result string :=
  let bodyIndex := Index raw twoRns + len twoRns in
  slice_from raw bodyIndex.

Fixpoint parseRawCookies_loop (cs : list string) (cookies : mapref) : M unit :=
  match cs with
  | [] => mret ()
  | c :: cs' =>
      key ← lift (index (Split c "=") 0);
      val ← lift (index (Split c "=") 1);
      map_set cookies key (Replace val dquote "%22" (-1));;
      parseRawCookies_loop cs' cookies
  end.

Definition parseRawCookies (cookies : mapref) (raw : string) : M unit :=
  parseRawCookies_loop (Split raw "; ") cookies.

Definition Parse (bs : string) : M Request :=
  requestLine ← lift (index (Split bs crlf) 0);
  '(method, requestUri, protocolVersion) ← lift (parseRequestLine requestLine);
  let '(path, query) := parseRequestUri requestUri in
  headers ← parseHeaders bs;
  cookies ← make;
  rawCookies ← map_get headers "Cookie";
  match rawCookies with
  | Some rawCookies =>
      map_delete headers "Cookie";;
      parseRawCookies cookies rawCookies
  | None => mret ()
  end;;
  body ← lift (extractBody bs);
  mret {| Method := method; RequestUri := requestUri; Path := path; Query := query;
          ProtocolVersion := protocolVersion; Headers := headers; Cookies := cookies;
          Body := body |}.

(** *** Copying and changing a request *)

Fixpoint copyMap_loop (entries : list (string * string)) (res : mapref) : M unit :=
  match entries with
  | [] => mret ()
  | (k, v) :: entries' => map_set res k v;; copyMap_loop entries' res
  end.

Definition copyMap (hs : mapref) : M mapref :=
  res ← make;
  entries ← map_entries hs;
  copyMap_loop entries res;;
  mret res.

Definition Clone (r : Request) : M Request :=
  headers ← copyMap (Headers r);
  cookies ← copyMap (Cookies r);
  mret {| Method := Method r; RequestUri := RequestUri r; Path := Path r;
          Query := Query r; ProtocolVersion := ProtocolVersion r;
          Headers := headers; Cookies := cookies; Body := Body r |}.

Definition set_RequestUri (r : Request) (x : string) : Request :=
  {| Method := Method r; RequestUri := x; Path := Path r; Query := Query r;
     ProtocolVersion := ProtocolVersion r; Headers := Headers r;
     Cookies := Cookies r; Body := Body r |}.

Definition set_Path (r : Request) (x : string) : Request :=
  {| Method := Method r; RequestUri := RequestUri r; Path := x; Query := Query r;
     ProtocolVersion := ProtocolVersion r; Headers := Headers r;
     Cookies := Cookies r; Body := Body r |}.

Definition set_Query (r : Request) (x : string) : Request :=
  {| Method := Method r; RequestUri := RequestUri r; Path := Path r; Query := x;
     ProtocolVersion := ProtocolVersion r; Headers := Headers r;
     Cookies := Cookies r; Body := Body r |}.

Definition set_Body (r : Request) (x : string) : Request :=
  {| Method := Method r; RequestUri := RequestUri r; Path := Path r; Query := Query r;
     ProtocolVersion := ProtocolVersion r; Headers := Headers r;
     Cookies := Cookies r; Body := x |}.

Definition set_Cookies (r : Request) (x : mapref) : Request :=
  {| Method := Method r; RequestUri := RequestUri r; Path := Path r; Query := Query r;
     ProtocolVersion := ProtocolVersion r; Headers := Headers r;
     Cookies := x; Body := Body r |}.

Definition WithPath (r : Request) (path : string) : M Request :=
  result ← Clone r;
  let result := set_RequestUri result (Replace (RequestUri r) (Path r) path 1) in
  let result := set_Path result path in
  mret result.

Definition WithQuery (r : Request) (query : string) : M Request :=
  result ← Clone r;
  let result := set_RequestUri result (Replace (RequestUri r) (Query r) query 1) in
  let result := set_Query result query in
  mret result.

Definition WithBody (r : Request) (body : string) : M Request :=
  result ← Clone r;
  let result := set_Body result body in
  mret result.

Definition WithHeader (r : Request) (key val : string) : M Request :=
  result ← Clone r;
  map_set (Headers result) key val;;
  mret result.

Definition WithCookie (r : Request) (key val : string) : M Request :=
  result ← Clone r;
  map_set (Cookies result) key val;;
  mret result.

Definition WithCookieString (r : Request) (val : string) : M Request :=
  result ← Clone r;
  cookies ← make;
  let result := set_Cookies result cookies in
  parseRawCookies (Cookies result) val;;
  mret result.

Definition WithHeaderString (r : Request) (header : string) : M Request :=
  '(key, val) ← lift (parseHeader header);
  result ← Clone r;
  map_set (Headers result) key val;;
  mret result.

(** The seven mutators, with their arguments. *)
Inductive Mutator :=
| CallWithPath (path : string)
| CallWithQuery (query : string)
| CallWithBody (body : string)
| CallWithHeader (key val : string)
| CallWithCookie (key val : string)
| CallWithCookieString (val : string)
| CallWithHeaderString (header : string).

Definition call (m : Mutator) (r : Request) : M Request :=
  match m with
  | CallWithPath path => WithPath r path
  | CallWithQuery query => WithQuery r query
  | CallWithBody body => WithBody r body
  | CallWithHeader key val => WithHeader r key val
  | CallWithCookie key val => WithCookie r key val
  | CallWithCookieString val => WithCookieString r val
  | CallWithHeaderString header => WithHeaderString r header
  end.

(** *** The words of the specification

    The header lines are the lines after the first one, up to the first
    empty line; a header is its line cut at the first colon, the value
    trimmed; the cookies are the pieces of the [Cookie] value between
    ["; "], each cut at ["="], with the double quotes of the value
    escaped. A later entry of the same name replaces an earlier one. *)

Definition part (i : nat) (parts : list string) : string := nth i parts EmptyString.

Definition has_two (parts : list string) : bool := (2 <=? length parts)%nat.

Fixpoint up_to_empty (lines : list string) : list string :=
  match lines with
  | [] => []
  | line :: lines' => if len line =? 0 then [] else line :: up_to_empty lines'
  end.

Definition header_lines (raw : string) : list string :=
  up_to_empty (tail (Split raw crlf)).

Definition header_entry (line : string) : string * string :=
  let parts := SplitN line ":" 2 in (part 0 parts, TrimSpace (part 1 parts)).

Definition entries_map (entries : list (string * string)) : gmap string string :=
  foldl (fun m e => <[e.1 := e.2]> m) ∅ entries.

Definition header_map (raw : string) : gmap string string :=
  entries_map (map header_entry (header_lines raw)).

Definition cookie_entry (c : string) : string * string :=
  let parts := Split c "=" in (part 0 parts, Replace (part 1 parts) dquote "%22" (-1)).

Definition cookie_map (val : string) : gmap string string :=
  entries_map (map cookie_entry (Split val "; ")).

Definition cookies_well_formed (val : string) : bool :=
  forallb (fun c => has_two (Split c "=")) (Split val "; ").

Definition header_well_formed (line : string) : bool := has_two (SplitN line ":" 2).

(** The raw requests on which [Parse] returns: three words or more on the
    first line, a colon in every header line, an ["="] in every cookie,
    and a body index within the request. *)
Definition parses (raw : string) : bool :=
  (3 <=? length (Split (part 0 (Split raw crlf)) " "))%nat
  && forallb header_well_formed (header_lines raw)
  && match header_map raw !! "Cookie" with
     | Some val => cookies_well_formed val
     | None => true
     end
  && (Index raw twoRns + len twoRns <=? len raw).

(** What a reader sees of a request: its fields, with the maps that its
    references stand for. *)
Record Fields := {
  fMethod : string;
  fRequestUri : string;
  fPath : string;
  fQuery : string;
  fProtocolVersion : string;
  fHeaders : gmap string string;
  fCookies : gmap string string;
  fBody : string
}.

Definition read (h : store) (r : Request) : Fields :=
  {| fMethod := Method r; fRequestUri := RequestUri r; fPath := Path r;
     fQuery := Query r; fProtocolVersion := ProtocolVersion r;
     fHeaders := contents h (Headers r); fCookies := contents h (Cookies r);
     fBody := Body r |}.

(** The fields with the one component a mutator is asked to change (and the
    request URI rewritten for the path and the query). *)
Definition changed (m : Mutator) (f : Fields) : Fields :=
  match m with
  | CallWithPath path =>
      {| fMethod := fMethod f;
         fRequestUri := Replace (fRequestUri f) (fPath f) path 1;
         fPath := path; fQuery := fQuery f;
         fProtocolVersion := fProtocolVersion f; fHeaders := fHeaders f;
         fCookies := fCookies f; fBody := fBody f |}
  | CallWithQuery query =>
      {| fMethod := fMethod f;
         fRequestUri := Replace (fRequestUri f) (fQuery f) query 1;
         fPath := fPath f; fQuery := query;
         fProtocolVersion := fProtocolVersion f; fHeaders := fHeaders f;
         fCookies := fCookies f; fBody := fBody f |}
  | CallWithBody body =>
      {| fMethod := fMethod f; fRequestUri := fRequestUri f;
         fPath := fPath f; fQuery := fQuery f;
         fProtocolVersion := fProtocolVersion f; fHeaders := fHeaders f;
         fCookies := fCookies f; fBody := body |}
  | CallWithHeader key val =>
      {| fMethod := fMethod f; fRequestUri := fRequestUri f;
         fPath := fPath f; fQuery := fQuery f;
         fProtocolVersion := fProtocolVersion f;
         fHeaders := <[key := val]> (fHeaders f);
         fCookies := fCookies f; fBody := fBody f |}
  | CallWithCookie key val =>
      {| fMethod := fMethod f; fRequestUri := fRequestUri f;
         fPath := fPath f; fQuery := fQuery f;
         fProtocolVersion := fProtocolVersion f; fHeaders := fHeaders f;
         fCookies := <[key := val]> (fCookies f); fBody := fBody f |}
  | CallWithCookieString val =>
      {| fMethod := fMethod f; fRequestUri := fRequestUri f;
         fPath := fPath f; fQuery := fQuery f;
         fProtocolVersion := fProtocolVersion f; fHeaders := fHeaders f;
         fCookies := cookie_map val; fBody := fBody f |}
  | CallWithHeaderString header =>
      {| fMethod := fMethod f; fRequestUri := fRequestUri f;
         fPath := fPath f; fQuery := fQuery f;
         fProtocolVersion := fProtocolVersion f;
         fHeaders := <[(header_entry header).1 := (header_entry header).2]> (fHeaders f);
         fCookies := fCookies f; fBody := fBody f |}
  end.

(** What the specification says a parsed request reads as. *)
Definition parsed (raw : string) : Fields :=
  let words := Split (part 0 (Split raw crlf)) " " in
  {| fMethod := part 0 words;
     fRequestUri := part 1 words;
     fPath := (parseRequestUri (part 1 words)).1;
     fQuery := (parseRequestUri (part 1 words)).2;
     fProtocolVersion := part 2 words;
     fHeaders := delete "Cookie" (header_map raw);
     fCookies := match header_map raw !! "Cookie" with
                 | Some val => cookie_map val
                 | None => ∅
                 end;
     fBody := drop (Z.to_nat (Index raw twoRns + len twoRns)) raw |}.

(** The arguments on which a mutator returns: the two that parse a string
    panic on a cookie without ["="] and on a header without a colon. *)
Definition accepts (m : Mutator) : bool :=
  match m with
  | CallWithCookieString val => cookies_well_formed val
  | CallWithHeaderString header => header_well_formed header
  | _ => true
  end.

(** The references of a request are [nil] or maps of the store. *)
Definition valid_ref (h : store) (m : mapref) : bool :=
  match m with
  | Some l => bool_decide (l ∈ dom h)
  | None => true
  end.

Definition valid (h : store) (r : Request) : bool :=
  valid_ref h (Headers r) && valid_ref h (Cookies r).

(** The store [h'] holds every map of [h] as it was. *)
Definition keeps (h h' : store) : Prop := forall l, l ∈ dom h -> h' !! l = h !! l.

(** The request of the specification's example, and three more. *)
Definition example_request : string :=
  "GET /a?x=1 HTTP/1.1" +:+ crlf +:+ "Host: h" +:+ crlf +:+ crlf.

Definition cookie_request : string :=
  "GET / HTTP/1.1" +:+ crlf +:+ "Host: h" +:+ crlf
  +:+ "Cookie: a=1; b=" +:+ dquote +:+ "x" +:+ dquote +:+ crlf +:+ crlf.

Definition leading_question_mark_request : string :=
  "GET ?x=1 HTTP/1.1" +:+ crlf +:+ crlf.

Definition no_query_request : string :=
  "GET /a HTTP/1.1" +:+ crlf +:+ crlf.

(** The invariant of the specification: the request URI is the path, then
    "?" and the query when there is a query. *)
Definition uri_consistent (r : Request) : bool :=
  match Query r with
  | EmptyString => String.eqb (RequestUri r) (Path r)
  | _ => String.eqb (RequestUri r) (Path r +:+ "?" +:+ Query r)
  end.

(** *** The encoding of the body, and the response as text *)

Definition HasJsonBody (r : Request) : M bool :=
  ct ← map_get (Headers r) "Content-Type";
  mret (match ct with
        | Some ct => String.eqb ct "application/json"
        | None => false
        end).

Definition HasFormUrlEncodedBody (r : Request) : M bool :=
  ct ← map_get (Headers r) "Content-Type";
  mret (match ct with
        | Some ct => String.eqb ct "application/x-www-form-urlencoded"
        | None => false
        end).

Definition HasMultipartFormBody (r : Request) : M bool :=
  ct ← map_get (Headers r) "Content-Type";
  mret (match ct with
        | Some ct => HasPrefix ct "multipart/form-data"
        | None => false
        end).

(** [Response.String]: [%v] prints an integer in decimal. *)
Definition Response_String (res : Response) : string :=
  "[Code: " +:+ GoStrconv.Itoa (Code res) +:+ ", Len: "
  +:+ GoStrconv.Itoa (Length res) +:+ "]".

(** A chain of mutator calls, each on the request that the one before it
    returned. *)
Fixpoint call_all (ms : list Mutator) (r : Request) : M Request :=
  match ms with
  | [] => mret r
  | m :: ms' => r' ← call m r; call_all ms' r'
  end.

End http.

(** * Properties *)

Import GoStrings GoStrconv.

#[local] Arguments String.append !_ _ / : simpl nomatch.

(** ** Strings *)

Section StringFacts.

Implicit Types (s p q sub : string) (c : ascii).

Lemma HasPrefix_app p q : HasPrefix (p +:+ q) p = true.
Proof.
  induction p as [|a p IH]; simpl; [done|].
  by rewrite Ascii.eqb_refl.
Qed.

Lemma str_take_app p q : take (String.length p) (p +:+ q) = p.
Proof. induction p as [|a p IH]; simpl; [done | by rewrite IH]. Qed.

Lemma str_drop_app p q : drop (String.length p) (p +:+ q) = q.
Proof. induction p as [|a p IH]; simpl; [by destruct q | done]. Qed.

Lemma str_drop_plus n m s : drop (n + m) s = drop m (drop n s).
Proof.
  revert s; induction n as [|n IH]; intros s; simpl.
  - by destruct s, m.
  - destruct s; simpl; [by destruct m | apply IH].
Qed.

Lemma str_length_app p q : String.length (p +:+ q) = (String.length p + String.length q)%nat.
Proof. induction p as [|a p IH]; simpl; [done | by rewrite IH]. Qed.

Lemma str_app_nil s : s +:+ "" = s.
Proof. induction s as [|a s IH]; simpl; [done | by rewrite IH]. Qed.

Lemma str_app_assoc p q s : (p +:+ q) +:+ s = p +:+ (q +:+ s).
Proof. induction p as [|a p IH]; simpl; [done | by rewrite IH]. Qed.

Lemma find_char_at p c q :
  free_of c p = true ->
  find (p +:+ String c q) (String c EmptyString) = Some (String.length p).
Proof.
  induction p as [|a p IH]; simpl; intros Hp.
  - by rewrite Ascii.eqb_refl.
  - apply andb_prop in Hp as [Hne Hp].
    destruct (Ascii.eqb c a); [done|]. by rewrite (IH Hp).
Qed.

Lemma find_char_none s c :
  free_of c s = true -> find s (String c EmptyString) = None.
Proof.
  induction s as [|a s IH]; simpl; intros Hs; [done|].
  apply andb_prop in Hs as [Hne Hs].
  destruct (Ascii.eqb c a); [done|]. by rewrite (IH Hs).
Qed.

Lemma split_loop_nonempty k s sep : split_loop k s sep <> [].
Proof. destruct k; simpl; [done|]. by destruct (find s sep). Qed.

Lemma Split_nonempty s c sep' : Split s (String c sep') <> [].
Proof. apply split_loop_nonempty. Qed.

Lemma split_loop_free k s c :
  free_of c s = true -> split_loop k s (String c EmptyString) = [s].
Proof. intros Hs. destruct k; simpl; [done|]. by rewrite find_char_none. Qed.

(** Splitting at a one-byte separator that occurs once. *)
Lemma Split_two p c q :
  free_of c p = true -> free_of c q = true ->
  Split (p +:+ String c q) (String c EmptyString) = [p; q].
Proof.
  intros Hp Hq. unfold Split, SplitN; simpl.
  rewrite str_length_app; simpl. rewrite Nat.add_succ_r; simpl.
  rewrite (find_char_at _ _ _ Hp), str_take_app, str_drop_plus, str_drop_app; simpl.
  by rewrite split_loop_free.
Qed.

Lemma Split_one s c :
  free_of c s = true -> Split s (String c EmptyString) = [s].
Proof. intros Hs. unfold Split, SplitN; simpl. by apply split_loop_free. Qed.

Lemma free_of_app c p q : free_of c (p +:+ q) = free_of c p && free_of c q.
Proof. induction p as [|a p IH]; simpl; [done|]. by rewrite IH, andb_assoc. Qed.

Lemma all_digits_free c s :
  is_digit c = false -> all_digits s = true -> free_of c s = true.
Proof.
  intros Hc. induction s as [|a s IH]; simpl; [done|].
  intros [Ha Hs]%andb_prop. rewrite (IH Hs), andb_true_r.
  destruct (Ascii.eqb_spec c a) as [->|]; [congruence | done].
Qed.

End StringFacts.

(** ** Decimal numerals *)

Section AtoiFacts.

Implicit Types (s : string) (c : ascii) (d : Decimal.uint).

Lemma digit_is_digit c : is_digit c = false -> digit c = None.
Proof. destruct c as [[] [] [] [] [] [] [] []]; vm_compute; congruence. Qed.

Lemma digits_not_all s acc : all_digits s = false -> digits s acc = None.
Proof.
  revert acc; induction s as [|c s IH]; simpl; intros acc H; [done|].
  destruct (is_digit c) eqn:Hc; simpl in H.
  - destruct (digit c); [by apply IH | done].
  - by rewrite digit_is_digit.
Qed.

Lemma ParseUint_not_numeric s : unsigned_numeric s = false -> ParseUint s = None.
Proof. destruct s; [done|]. apply digits_not_all. Qed.

(** A component that is not numeric yields 0 (and a syntax error, which
    [parseRange] drops). *)
Lemma Atoi_not_numeric s : numeric s = false -> Atoi s = (0, Some ErrSyntax).
Proof.
  unfold numeric, Atoi. destruct s as [|c s]; [done|].
  destruct c as [[] [] [] [] [] [] [] []]; cbv beta iota;
    intros H; by rewrite (ParseUint_not_numeric _ H).
Qed.

Local Ltac eval_digit :=
  match goal with
  | |- context [Z.of_nat (nat_of_ascii ?c)] =>
      let v := eval vm_compute in (Z.of_nat (nat_of_ascii c)) in
      change (Z.of_nat (nat_of_ascii c)) with v
  end.

Lemma all_digits_uint d : all_digits (NilEmpty.string_of_uint d) = true.
Proof. induction d; simpl; auto. Qed.

Lemma digits_uint_acc d (a : positive) :
  digits (NilEmpty.string_of_uint d) (Z.pos a) = Some (Z.pos (Pos.of_uint_acc d a)).
Proof.
  revert a; induction d as [|d IH|d IH|d IH|d IH|d IH|d IH|d IH|d IH|d IH|d IH];
    intros a; simpl; [done|..];
    eval_digit;
    match goal with
    | |- digits _ ?z = Some (Z.pos (Pos.of_uint_acc _ ?q)) =>
        replace z with (Z.pos q) by lia; apply IH
    end.
Qed.

Lemma digits_uint d :
  digits (NilEmpty.string_of_uint d) 0 = Some (Z.of_N (Pos.of_uint d)).
Proof.
  induction d as [|d IH|d IH|d IH|d IH|d IH|d IH|d IH|d IH|d IH|d IH];
    simpl; [done| apply IH |..];
    eval_digit; apply digits_uint_acc.
Qed.

Lemma in_range_id n : minInt <= n <= maxInt -> in_range n = (n, None).
Proof.
  intros [? ?]. unfold in_range.
  destruct (Z.ltb_spec maxInt n); [lia|].
  by destruct (Z.ltb_spec n minInt); [lia|].
Qed.

(** On a non-empty run of digits [Atoi] is the digit loop. *)
Lemma Atoi_digits c s n :
  is_digit c = true -> digits (String c s) 0 = Some n -> 0 <= n <= maxInt ->
  Atoi (String c s) = (n, None).
Proof.
  intros Hc Hn [H0 Hmax].
  assert (ParseUint (String c s) = Some n) as Hp by done.
  assert (in_range n = (n, None)) as Hr by (apply in_range_id; unfold minInt; lia).
  unfold Atoi. revert Hc Hp.
  destruct c as [[] [] [] [] [] [] [] []]; cbv beta iota;
    intros Hc Hp; try discriminate Hc; by rewrite Hp.
Qed.

Lemma Itoa_nonneg z :
  0 <= z -> exists c s,
    Itoa z = String c s /\ is_digit c = true /\ all_digits s = true
    /\ digits (String c s) 0 = Some z.
Proof.
  intros Hz. unfold Itoa.
  destruct z as [|p|p]; [by exists "0"%char, EmptyString | | lia].
  simpl.
  pose proof (all_digits_uint (Pos.to_uint p)) as Hall.
  pose proof (digits_uint (Pos.to_uint p)) as Hdig.
  rewrite DecimalPos.Unsigned.of_to in Hdig.
  pose proof (DecimalPos.Unsigned.to_uint_nonnil p) as Hnil.
  destruct (Pos.to_uint p) eqn:Hu; [done|..];
    (eexists _, _; split; [reflexivity|]; split; [reflexivity|]; split;
     [exact Hall | exact Hdig]).
Qed.

Lemma Atoi_Itoa z : 0 <= z <= maxInt -> Atoi (Itoa z) = (z, None).
Proof.
  intros [H0 Hmax]. destruct (Itoa_nonneg z H0) as (c & s & -> & Hc & _ & Hd).
  by apply Atoi_digits.
Qed.

Lemma Itoa_free c z : 0 <= z -> is_digit c = false -> free_of c (Itoa z) = true.
Proof.
  intros H0 Hc. destruct (Itoa_nonneg z H0) as (a & s & -> & Ha & Hs & _).
  apply all_digits_free; [done|]. simpl. by rewrite Ha, Hs.
Qed.

End AtoiFacts.

(** ** Package [reportable] *)

Import reportable.

Section ReportableFacts.

Implicit Types (val : string) (v : Z) (ranges : list Range) (res : Response).

Lemma isValueInRanges_spec ranges v :
  isValueInRanges ranges v = true <->
  exists ran, ran ∈ ranges /\ From ran <= v <= To ran.
Proof.
  induction ranges as [|ran ranges IH]; simpl.
  - split; [done | intros (? & []%elem_of_nil & _)].
  - destruct (Z.geb_spec v (From ran)) as [Hge|Hlt]; simpl;
      [destruct (Z.leb_spec v (To ran)) as [Hle|Hgt]|].
    + split; [|done]. intros _. exists ran. split; [left | lia].
    + rewrite IH. split.
      * intros (r & Hin & Hr). exists r. split; [by right | done].
      * intros (r & [->|Hin]%elem_of_cons & Hr); [lia | eauto].
    + rewrite IH. split.
      * intros (r & Hin & Hr). exists r. split; [by right | done].
      * intros (r & [->|Hin]%elem_of_cons & Hr); [lia | eauto].
Qed.

Lemma isValueInRanges_perm ranges ranges' v :
  ranges ≡ₚ ranges' -> isValueInRanges ranges v = isValueInRanges ranges' v.
Proof.
  intros Hp. apply eq_true_iff_eq. rewrite !isValueInRanges_spec.
  by setoid_rewrite Hp.
Qed.

(** What [parseRange] computes, by the number of components. *)
Lemma parseRange_eq val :
  parseRange val =
    match Split val "-" with
    | [a; b] => Ok {| From := fst (Atoi a); To := fst (Atoi b) |}
    | a :: _ => Ok {| From := fst (Atoi a); To := fst (Atoi a) |}
    | [] => Panic (IndexOutOfRange 0 0)
    end.
Proof.
  unfold parseRange. destruct (Split val "-") as [|a [|b [|c l]]]; [done..|].
  cbv zeta. destruct (Z.eqb_spec (Z.of_nat (length (a :: b :: c :: l))) 2) as [H|H];
    [simpl in H; lia | done].
Qed.

Lemma parseRange_returns val : exists ran, parseRange val = Ok ran.
Proof.
  rewrite parseRange_eq. pose proof (Split_nonempty val "-" EmptyString) as Hne.
  destruct (Split val "-") as [|a [|b [|c l]]]; [done | eauto..].
Qed.

Lemma parseRanges_loop_returns (toks : list string) ranges :
  exists ranges', parseRanges_loop toks ranges = Ok ranges'.
Proof.
  revert ranges; induction toks as [|t toks IH]; intros ranges; simpl; [eauto|].
  destruct (parseRange_returns t) as [ran ->]. apply IH.
Qed.

Lemma parseRanges_returns val : exists ranges, parseRanges val = Ok ranges.
Proof. apply parseRanges_loop_returns. Qed.

Lemma scan_matchers_spec res (matchers : list Matcher) :
  scan_matchers res matchers false = true <->
  exists m, m ∈ matchers /\ m res = true.
Proof.
  induction matchers as [|m ms IH]; simpl.
  - split; [done | intros (? & []%elem_of_nil & _)].
  - destruct (m res) eqn:Hm.
    + split; [|done]. intros _. exists m. split; [left | done].
    + rewrite IH. split.
      * intros (m' & Hin & Hm'). exists m'. split; [by right | done].
      * intros (m' & [->|Hin]%elem_of_cons & Hm'); [congruence | eauto].
Qed.

Lemma scan_filters_spec res (filters : list Filter) :
  scan_filters res filters true = true <->
  forall f, f ∈ filters -> f res = true.
Proof.
  induction filters as [|f fs IH]; simpl.
  - split; [intros _ ? []%elem_of_nil | done].
  - destruct (f res) eqn:Hf; simpl.
    + rewrite IH. split.
      * intros H f' [->|Hin]%elem_of_cons; auto.
      * intros H f' Hin. apply H. by right.
    + split; [done|]. intros H. rewrite <- Hf. apply H. left.
Qed.

End ReportableFacts.

(** C1. [IsReportable] answers true exactly when every filter answers true
    on the response and either some matcher answers true on it or there is
    no matcher. In particular a response with no matcher and one filter
    that keeps it is reportable, and a response whose only matcher rejects
    it is not. *)
Theorem C1_IsReportable_filters_and_matchers
    (r : Response) (ms : list Matcher) (fs : list Filter) :
  (IsReportable r ms fs = true <->
     (forall f, f ∈ fs -> f r = true) /\
     ((exists m, m ∈ ms /\ m r = true) \/ ms = []))
  /\ (forall f : Filter, f r = true -> IsReportable r [] [f] = true)
  /\ (forall m : Matcher, m r = false -> IsReportable r [m] [] = false).
Proof.
  split; [|split].
  - unfold IsReportable. rewrite andb_true_iff, orb_true_iff.
    rewrite scan_filters_spec, scan_matchers_spec.
    assert ((Z.of_nat (length ms) =? 0) = true <-> ms = []) as ->; [|done].
    by destruct ms.
  - intros f Hf. unfold IsReportable; simpl. by rewrite Hf.
  - intros m Hm. unfold IsReportable; simpl. by rewrite Hm.
Qed.

(** C6. For every ranges text the four constructors return, and the filter
    built from the text is the pointwise negation of the matcher built from
    the same text, by status code and by length. *)
Theorem C6_filters_negate_matchers (s : string) :
  exists (mc ml : Matcher) (fc fl : Filter),
    MatchCodes s = Ok mc /\ FilterCodes s = Ok fc /\
    MatchLengths s = Ok ml /\ FilterLengths s = Ok fl /\
    forall r : Response, fc r = negb (mc r) /\ fl r = negb (ml r).
Proof.
  unfold MatchCodes, FilterCodes, MatchLengths, FilterLengths.
  destruct (parseRanges_returns s) as [ranges ->]; simpl.
  by eexists _, _, _, _.
Qed.

(** C9. [parseRange] returns a range for every token. A bound whose
    component is not numeric is 0: the lower bound comes from the first
    component, the upper bound from the second one when there are exactly
    two components and is the lower bound again otherwise. [parseRanges]
    returns a list of ranges for every text. *)
Theorem C9_non_numeric_bound_is_zero (val : string) :
  (exists ran, parseRange val = Ok ran /\
     (forall c, Split val "-" !! 0%nat = Some c -> numeric c = false -> From ran = 0) /\
     (forall c, length (Split val "-") = 2%nat ->
                Split val "-" !! 1%nat = Some c -> numeric c = false -> To ran = 0) /\
     (length (Split val "-") <> 2%nat -> To ran = From ran))
  /\ (exists ranges, parseRanges val = Ok ranges).
Proof.
  split; [|apply parseRanges_returns].
  rewrite parseRange_eq. pose proof (Split_nonempty val "-" EmptyString) as Hne.
  destruct (Split val "-") as [|a [|b [|c l]]]; [done|..];
    eexists; (split; [reflexivity|]); simpl; repeat split; try done;
    try (intros ? [= <-] H; by rewrite (Atoi_not_numeric _ H));
    try (intros ? _ [= <-] H; by rewrite (Atoi_not_numeric _ H)).
Qed.

(** C2, as the code has it: the ranges text is read with "-" as the
    separator of the two bounds, so the law holds for bounds written
    without a sign. For all a, b, c between 0 and the largest [int], the
    text "a-b,c" parses to the ranges {a,b} and {c,c}, and a value is in
    them exactly when it lies between a and b or equals c. "200" parses to
    {200,200} and "300-399" to {300,399}. Membership is the union of the
    ranges, whatever their order. *)
Theorem C2_ranges_membership (a b c v : Z)
    (Ha : 0 <= a <= maxInt) (Hb : 0 <= b <= maxInt) (Hc : 0 <= c <= maxInt) :
  (exists ranges,
     parseRanges (Itoa a +:+ "-" +:+ Itoa b +:+ "," +:+ Itoa c) = Ok ranges /\
     ranges = [ {| From := a; To := b |}; {| From := c; To := c |} ] /\
     (isValueInRanges ranges v = true <-> a <= v <= b \/ v = c))
  /\ parseRange "200" = Ok {| From := 200; To := 200 |}
  /\ parseRange "300-399" = Ok {| From := 300; To := 399 |}
  /\ (forall ranges w,
        isValueInRanges ranges w = true <->
        exists ran, ran ∈ ranges /\ From ran <= w <= To ran)
  /\ (forall ranges ranges' w,
        ranges ≡ₚ ranges' -> isValueInRanges ranges w = isValueInRanges ranges' w).
Proof.
  split; [|split; [reflexivity | split; [reflexivity | split]]].
  - eexists. split; [|split; [reflexivity|]].
    + unfold parseRanges.
      pose proof (Itoa_free "," a (proj1 Ha) eq_refl) as Fa.
      pose proof (Itoa_free "," b (proj1 Hb) eq_refl) as Fb.
      pose proof (Itoa_free "," c (proj1 Hc) eq_refl) as Fc.
      pose proof (Itoa_free "-" a (proj1 Ha) eq_refl) as Ga.
      pose proof (Itoa_free "-" b (proj1 Hb) eq_refl) as Gb.
      pose proof (Itoa_free "-" c (proj1 Hc) eq_refl) as Gc.
      replace (Itoa a +:+ "-" +:+ Itoa b +:+ "," +:+ Itoa c)
        with ((Itoa a +:+ "-" +:+ Itoa b) +:+ String "," (Itoa c))
        by (by rewrite !str_app_assoc).
      rewrite Split_two; [|by rewrite !free_of_app, Fa, Fb | done].
      simpl. rewrite !parseRange_eq.
      change ("-" +:+ Itoa b) with (String "-" (Itoa b)).
      rewrite Split_two, Split_one by done.
      simpl. by rewrite !Atoi_Itoa.
    + rewrite isValueInRanges_spec. split.
      * intros (ran & Hin & Hv).
        apply elem_of_cons in Hin as [->|Hin]; [by left|].
        apply list_elem_of_singleton in Hin as ->. simpl in Hv. right; lia.
      * intros [Hv| ->]; eexists; (split; [|]).
        -- left.
        -- done.
        -- right; left.
        -- simpl; lia.
  - apply isValueInRanges_spec.
  - apply isValueInRanges_perm.
Qed.

Lemma C2_ranges_membership_witness :
  exists ranges,
    parseRanges "301-302,404" = Ok ranges /\
    ranges = [ {| From := 301; To := 302 |}; {| From := 404; To := 404 |} ] /\
    (isValueInRanges ranges 302 = true <-> 301 <= 302 <= 302 \/ 302 = 404).
Proof.
  apply (proj1 (C2_ranges_membership 301 302 404 302
                  ltac:(by vm_compute) ltac:(by vm_compute) ltac:(by vm_compute))).
Defined.

(** C2 as stated fails for a bound written with a sign: in "-1-5,7" the
    leading "-" is a separator, the token "-1-5" has three components and
    parses to {0,0}, so 3, which lies between -1 and 5, is not a member. *)
Lemma C2_negative_bound_counterexample :
  Itoa (-1) +:+ "-" +:+ Itoa 5 +:+ "," +:+ Itoa 7 = "-1-5,7"
  /\ parseRanges "-1-5,7" = Ok [ {| From := 0; To := 0 |}; {| From := 7; To := 7 |} ]
  /\ isValueInRanges [ {| From := 0; To := 0 |}; {| From := 7; To := 7 |} ] 3 = false
  /\ (-1 <= 3 <= 5).
Proof. repeat split; (reflexivity || lia || discriminate). Qed.

(** ** Package [matchlang] *)

Import matchlang.

Section ParserFacts.

Implicit Types (toks : list LexToken) (p : Parser) (a : Ast).

Lemma index_lookup {A} (l : list A) (i : nat) (x : A) :
  l !! i = Some x -> index l (Z.of_nat i) = Ok x.
Proof.
  intros H. unfold index. destruct (Z.ltb_spec (Z.of_nat i) 0); [lia|].
  by rewrite Nat2Z.id, H.
Qed.

Lemma index_out {A} (l : list A) (i : Z) :
  Z.of_nat (length l) <= i -> index l i = Panic (IndexOutOfRange i (length l)).
Proof.
  intros H. unfold index. destruct (Z.ltb_spec i 0); [done|].
  rewrite lookup_ge_None_2; [done | lia].
Qed.

Lemma consume_calls_left p p' :
  state p <> ParserConsumedLogicalOperatorState ->
  consume p = Ok (true, p') ->
  state p' <> ParserConsumedLogicalOperatorState /\ (calls_left p' < calls_left p)%nat.
Proof.
  intros Hst. unfold consume, consume_switch, calls_left.
  destruct p as [toks q st a]; simpl in *.
  destruct st; simpl; try done; try (intros [= <-]; simpl; split; [done | lia]).
  destruct (Z.ltb_spec q (Z.of_nat (length toks) - 1)); simpl;
    destruct (index toks (q - 3)); simpl; try done;
    destruct (index toks (q - 2)); simpl; try done;
    destruct (index toks (q - 1)); simpl; try done;
    intros [= <-]; simpl; (split; [done | lia]).
Qed.

Lemma consume_loop_total fuel p :
  state p <> ParserConsumedLogicalOperatorState ->
  (calls_left p <= fuel)%nat ->
  consume_loop fuel p <> None.
Proof.
  revert p; induction fuel as [|fuel IH]; intros p Hst Hfuel.
  - destruct p as [toks q st a]; destruct st; unfold calls_left in Hfuel; simpl in *; done || lia.
  - simpl. destruct (consume p) as [[[] p']|e] eqn:Hc; [|done..].
    destruct (consume_calls_left p p' Hst Hc) as [Hst' Hlt].
    apply IH; [done | lia].
Qed.

(** The loop of [Parse] ends on every token list. *)
Lemma parse_tokens_total toks : parse_tokens toks <> None.
Proof.
  unfold parse_tokens.
  pose proof (consume_loop_total (4 * length toks + 5) (new_parser toks)) as H.
  destruct (consume_loop _ _) as [[p|e]|]; [done..|].
  exfalso. apply H; [done | |done].
  unfold calls_left; simpl. lia.
Qed.

Lemma consume_loop_more fuel k p r :
  consume_loop fuel p = Some r -> consume_loop (fuel + k) p = Some r.
Proof.
  revert p; induction fuel as [|fuel IH]; intros p; simpl; [done|].
  destruct (consume p) as [[[] p']|e]; auto.
Qed.

End ParserFacts.

Section ParserRuns.

Implicit Types (toks : list LexToken) (p : Parser) (a : Ast) (q : Z).

Lemma consume_Consuming toks q a :
  consume {| tokens := toks; pos := q; state := ParserConsumingState; ast := a |}
  = Ok (true, {| tokens := toks; pos := q + 1; state := ParserConsumedLeftState; ast := a |}).
Proof. reflexivity. Qed.

Lemma consume_ConsumedLeft toks q a :
  consume {| tokens := toks; pos := q; state := ParserConsumedLeftState; ast := a |}
  = Ok (true, {| tokens := toks; pos := q + 1; state := ParserConsumedOperatorState; ast := a |}).
Proof. reflexivity. Qed.

Lemma consume_ConsumedOperator toks q a :
  consume {| tokens := toks; pos := q; state := ParserConsumedOperatorState; ast := a |}
  = Ok (true, {| tokens := toks; pos := q + 1; state := ParserConsumedRightState; ast := a |}).
Proof. reflexivity. Qed.

Lemma consume_ConsumedRight toks q a identifier operator literal :
  index toks (q - 3) = Ok identifier ->
  index toks (q - 2) = Ok operator ->
  index toks (q - 1) = Ok literal ->
  consume {| tokens := toks; pos := q; state := ParserConsumedRightState; ast := a |}
  = Ok (true, {| tokens := toks; pos := q + 1;
                 state := if q <? Z.of_nat (length toks) - 1
                          then ParserConsumingState else ParserDoneState;
                 ast := comparison_of (identifier, operator, literal) |}).
Proof.
  intros Hi Ho Hl. unfold consume, consume_switch; simpl.
  destruct (q <? Z.of_nat (length toks) - 1); simpl; by rewrite Hi, Ho, Hl.
Qed.

Lemma consume_Done toks q a :
  consume {| tokens := toks; pos := q; state := ParserDoneState; ast := a |}
  = Ok (false, {| tokens := toks; pos := q; state := ParserDoneState; ast := a |}).
Proof. reflexivity. Qed.

(** One turn of the state machine: four calls of [consume] read the three
    tokens at [q], [q+1] and [q+2] and leave the parser at [q+4]. *)
Lemma consume_cycle toks (n : nat) fuel a identifier operator literal :
  toks !! n = Some identifier ->
  toks !! S n = Some operator ->
  toks !! S (S n) = Some literal ->
  consume_loop (4 + fuel)
    {| tokens := toks; pos := Z.of_nat n; state := ParserConsumingState; ast := a |}
  = consume_loop fuel
      {| tokens := toks; pos := Z.of_nat n + 4;
         state := if Z.of_nat n + 3 <? Z.of_nat (length toks) - 1
                  then ParserConsumingState else ParserDoneState;
         ast := comparison_of (identifier, operator, literal) |}.
Proof.
  intros Hi%index_lookup Ho%index_lookup Hl%index_lookup.
  change (4 + fuel)%nat with (S (S (S (S fuel)))).
  cbn [consume_loop].
  rewrite consume_Consuming. cbn [consume_loop].
  rewrite consume_ConsumedLeft. cbn [consume_loop].
  rewrite consume_ConsumedOperator.
  rewrite (consume_ConsumedRight _ _ _ identifier operator literal).
  - by replace (Z.of_nat n + 1 + 1 + 1 + 1) with (Z.of_nat n + 4) by lia;
      replace (Z.of_nat n + 1 + 1 + 1) with (Z.of_nat n + 3) by lia.
  - by replace (Z.of_nat n + 1 + 1 + 1 - 3) with (Z.of_nat n) by lia.
  - by replace (Z.of_nat n + 1 + 1 + 1 - 2) with (Z.of_nat (S n)) by lia.
  - by replace (Z.of_nat n + 1 + 1 + 1 - 1) with (Z.of_nat (S (S n))) by lia.
Qed.

Lemma joined_length groups final :
  length (joined groups final) = (4 * length groups + 3)%nat.
Proof.
  induction groups as [|[[[i o] l] sep] groups IH]; simpl.
  - by destruct final as [[? ?] ?].
  - rewrite IH. lia.
Qed.

(** Comparisons joined by one token each: the loop ends with the last one. *)
Lemma consume_loop_joined groups final (pre : list LexToken) a :
  consume_loop (4 * length groups + 5)
    {| tokens := pre ++ joined groups final; pos := Z.of_nat (length pre);
       state := ParserConsumingState; ast := a |}
  = Some (Ok {| tokens := pre ++ joined groups final;
                pos := Z.of_nat (length pre) + 4 * Z.of_nat (length groups) + 4;
                state := ParserDoneState;
                ast := comparison_of final |}).
Proof.
  revert pre a. induction groups as [|[[[i o] l] sep] groups IH]; intros pre a.
  - destruct final as [[i o] l]. simpl joined.
    change (4 * length [] + 5)%nat with (4 + 1)%nat.
    rewrite (consume_cycle _ _ 1 a i o l).
    + rewrite length_app; simpl length.
      destruct (Z.ltb_spec (Z.of_nat (length pre) + 3)
                  (Z.of_nat (length pre + 3) - 1)); [lia|].
      simpl. do 3 f_equal. lia.
    + by rewrite lookup_app_r, Nat.sub_diag by lia.
    + rewrite lookup_app_r by lia.
      by replace (S (length pre) - length pre)%nat with 1%nat by lia.
    + rewrite lookup_app_r by lia.
      by replace (S (S (length pre)) - length pre)%nat with 2%nat by lia.
  - simpl joined. simpl length.
    replace (4 * S (length groups) + 5)%nat
      with (4 + (4 * length groups + 5))%nat by lia.
    rewrite (consume_cycle _ _ _ a i o l).
    + rewrite length_app; simpl length. rewrite joined_length.
      destruct (Z.ltb_spec (Z.of_nat (length pre) + 3)
                  (Z.of_nat (length pre + S (S (S (S (4 * length groups + 3))))) - 1));
        [|lia].
      specialize (IH (pre ++ [i; o; l; sep]) (comparison_of (i, o, l))).
      replace ((pre ++ [i; o; l; sep]) ++ joined groups final)
        with (pre ++ i :: o :: l :: sep :: joined groups final) in IH
        by (by rewrite <- (assoc_L (++))).
      rewrite length_app in IH. cbn [length] in IH.
      replace (Z.of_nat (length pre + 4)) with (Z.of_nat (length pre) + 4) in IH by lia.
      cbn [triple_tokens app].
      rewrite IH. do 3 f_equal. lia.
    + by rewrite lookup_app_r, Nat.sub_diag by lia.
    + rewrite lookup_app_r by lia.
      by replace (S (length pre) - length pre)%nat with 1%nat by lia.
    + rewrite lookup_app_r by lia.
      by replace (S (S (length pre)) - length pre)%nat with 2%nat by lia.
Qed.

Lemma parse_tokens_joined groups final :
  parse_tokens (joined groups final) = Some (Ok (comparison_of final)).
Proof.
  unfold parse_tokens, new_parser. rewrite joined_length.
  replace (4 * (4 * length groups + 3) + 5)%nat
    with ((4 * length groups + 5) + (12 * length groups + 12))%nat by lia.
  pose proof (consume_loop_joined groups final [] nilast) as H. simpl in H.
  by rewrite (consume_loop_more _ _ _ _ H).
Qed.

Lemma reachable_invariant toks p : reachable toks p -> parser_invariant toks p.
Proof.
  induction 1 as [|p b p' Hr IH Hc].
  - unfold parser_invariant; simpl. repeat split; auto; done.
  - destruct IH as (Htok & Hst & Hast & Hdone & Hpos).
    destruct p as [toks' q st a]; simpl in *; subst toks'.
    unfold consume, consume_switch in Hc; simpl in Hc.
    destruct st; simpl in Hc; try done;
      try (injection Hc as <- <-; unfold parser_invariant; simpl;
           repeat split; auto; try done;
           rewrite Z.add_mod, Hpos by lia; reflexivity).
    + destruct (q <? Z.of_nat (length toks) - 1); simpl in Hc;
        (destruct (index toks (q - 3)) as [i|]; simpl in Hc; [|done]);
        (destruct (index toks (q - 2)) as [o|]; simpl in Hc; [|done]);
        (destruct (index toks (q - 1)) as [l|]; simpl in Hc; [|done]);
        injection Hc as <- <-; unfold parser_invariant; simpl;
        repeat split; auto; try done; try (right; unfold lexTokenToIdentifier; eauto);
        try (intros _; unfold lexTokenToIdentifier; eauto).
      rewrite Z.add_mod, Hpos by lia; reflexivity.
Qed.

Lemma consume_false p p' :
  consume p = Ok (false, p') -> p' = p /\ state p = ParserDoneState.
Proof.
  unfold consume. destruct (state p) eqn:Hst;
    try (destruct (consume_switch p); simpl; intros [=]; done).
Qed.

Lemma consume_loop_reachable toks fuel p p' :
  reachable toks p -> consume_loop fuel p = Some (Ok p') ->
  reachable toks p' /\ state p' = ParserDoneState.
Proof.
  revert p; induction fuel as [|fuel IH]; intros p Hr; simpl; [done|].
  destruct (consume p) as [[[] p1]|e] eqn:Hc; [| |done].
  - apply IH. by eapply reach_consume.
  - intros [= <-]. split; [by eapply reach_consume|].
    by destruct (consume_false _ _ Hc) as [-> ?].
Qed.

Lemma parse_tokens_comparison toks a :
  parse_tokens toks = Some (Ok a) ->
  exists op id lit, a = Comparison op (Identifier id) (Literal lit).
Proof.
  unfold parse_tokens.
  destruct (consume_loop _ _) as [[p|e]|] eqn:Hl; [|done..].
  intros [= <-].
  destruct (consume_loop_reachable toks _ _ _ (reach_new toks) Hl) as [Hr Hd].
  by destruct (reachable_invariant _ _ Hr) as (_ & _ & _ & Hdone & _); auto.
Qed.

End ParserRuns.

(** C3, as the code has it: every turn of the state machine takes four
    token positions, three for the comparison and one for the token that
    follows it. For every input that lexes to two or more (identifier,
    operator, literal) triples with one token between each two of them,
    [Parse] returns the [Comparison] built from the last triple. Whatever
    the input, the loop of [Parse] ends; an AST it returns is a
    [Comparison] of an [Identifier] and a [Literal], with no
    [LogicalExpression] node; no parser state it reaches is
    [ParserConsumedLogicalOperatorState], none holds a [LogicalExpression]
    node, and the tokens a comparison is built from sit at positions 0, 1
    and 2 modulo 4, so the token between two triples is never read. *)
Theorem C3_last_comparison_survives
    (lex : string -> list LexToken) (s : string)
    (groups : list (triple * LexToken)) (final : triple)
    (Hlex : lex s = joined groups final)
    (Htwo : (2 <= length groups + 1)%nat) :
  Parse lex s = Some (Ok (comparison_of final))
  /\ (forall s', Parse lex s' <> None)
  /\ (forall s' a, Parse lex s' = Some (Ok a) ->
        (exists op id lit, a = Comparison op (Identifier id) (Literal lit))
        /\ no_logical a = true)
  /\ (forall toks p, reachable toks p ->
        state p <> ParserConsumedLogicalOperatorState
        /\ no_logical (ast p) = true
        /\ (state p = ParserConsumedRightState -> pos p mod 4 = 3)).
Proof.
  split; [|split; [|split]].
  - unfold Parse. rewrite Hlex. apply parse_tokens_joined.
  - intros s'. apply parse_tokens_total.
  - intros s' a Ha. destruct (parse_tokens_comparison _ _ Ha) as (op & id & lit & ->).
    split; [eauto | done].
  - intros toks p Hr.
    destruct (reachable_invariant _ _ Hr) as (_ & Hst & Hast & _ & Hpos).
    split; [done|]. split.
    + by destruct Hast as [-> | (op & id & lit & ->)].
    + intros Hright. by rewrite Hright in Hpos.
Qed.

Lemma C3_last_comparison_survives_witness :
  Parse (fun _ => [token CodeToken "code"; token EqualsToken "=="; token LiteralToken "200";
                   token AndToken "and";
                   token SizeToken "size"; token NotEqualsToken "!="; token LiteralToken "0"])
        "code == 200 and size != 0"
  = Some (Ok (Comparison NotEqualsOperator (Identifier SizeIdentifier) (Literal "0"))).
Proof.
  apply (proj1 (C3_last_comparison_survives
                  (fun _ => _) _
                  [((token CodeToken "code", token EqualsToken "==", token LiteralToken "200"),
                    token AndToken "and")]
                  (token SizeToken "size", token NotEqualsToken "!=", token LiteralToken "0")
                  eq_refl ltac:(simpl; lia))).
Defined.

(** C3 as stated fails when the two triples follow each other directly:
    on the six tokens of [code == 200 size != 0] the second turn of the
    state machine reads the positions 4, 5 and 6, and position 6 is outside
    the list, so [Parse] panics and returns no node. *)
Lemma C3_adjacent_triples_counterexample :
  Parse (fun _ => adjacent
           [(token CodeToken "code", token EqualsToken "==", token LiteralToken "200");
            (token SizeToken "size", token NotEqualsToken "!=", token LiteralToken "0")])
        "code == 200 size != 0"
  = Some (Panic (IndexOutOfRange 6 6)).
Proof. reflexivity. Qed.

(** C10. On an input that lexes to fewer than three tokens, the empty input
    included, three calls of [consume] take the parser to
    [ParserConsumedRightState] at position 3 with no check of the input;
    the fourth call reads [tokens[pos-3]], [tokens[pos-2]] and
    [tokens[pos-1]]; those of the three indices that are not below the
    length of the list are outside it, and [pos-1] always is. The call
    panics with an index out of range, and so does [Parse]: it returns no
    value, and its result type carries no error. *)
Theorem C10_truncated_input_panics
    (lex : string -> list LexToken) (s : string)
    (Hshort : (length (lex s) < 3)%nat) :
  exists p3,
    consume_n 3 (new_parser (lex s)) = Ok p3
    /\ tokens p3 = lex s
    /\ state p3 = ParserConsumedRightState
    /\ pos p3 = 3
    /\ (forall i, pos p3 - 3 <= i <= pos p3 - 1 ->
          Z.of_nat (length (lex s)) <= i ->
          index (tokens p3) i = Panic (IndexOutOfRange i (length (lex s))))
    /\ Z.of_nat (length (lex s)) <= pos p3 - 1
    /\ exists i,
         pos p3 - 3 <= i <= pos p3 - 1
         /\ consume p3 = Panic (IndexOutOfRange i (length (lex s)))
         /\ Parse lex s = Some (Panic (IndexOutOfRange i (length (lex s)))).
Proof.
  unfold Parse. destruct (lex s) as [|a [|b [|c l]]] eqn:Htoks;
    [| | | simpl in Hshort; lia];
    (eexists; split; [reflexivity|]; split; [reflexivity|];
     split; [reflexivity|]; split; [reflexivity|]; split;
     [intros i _ Hi; by apply index_out |]; split; [simpl; lia|]).
  - exists 0. by repeat split.
  - exists 1. by repeat split.
  - exists 2. by repeat split.
Qed.

Lemma C10_truncated_input_panics_witness :
  exists p3,
    consume_n 3 (new_parser [token CodeToken "code"; token EqualsToken "=="]) = Ok p3
    /\ tokens p3 = [token CodeToken "code"; token EqualsToken "=="]
    /\ state p3 = ParserConsumedRightState
    /\ pos p3 = 3
    /\ (forall i, pos p3 - 3 <= i <= pos p3 - 1 ->
          2 <= i -> index (tokens p3) i = Panic (IndexOutOfRange i 2))
    /\ 2 <= pos p3 - 1
    /\ exists i,
         pos p3 - 3 <= i <= pos p3 - 1
         /\ consume p3 = Panic (IndexOutOfRange i 2)
         /\ Parse (fun _ => [token CodeToken "code"; token EqualsToken "=="]) "code =="
            = Some (Panic (IndexOutOfRange i 2)).
Proof.
  apply (C10_truncated_input_panics
           (fun _ => [token CodeToken "code"; token EqualsToken "=="]) "code ==").
  simpl; lia.
Defined.

(** ** Package [http] *)

Import http.

Section StoreFacts.

Implicit Types (h : store) (l : loc) (m : gmap string string) (ref : mapref).

Lemma bind_Ok {A B} (c : M A) (f : A -> M B) h a h1 :
  c h = (Ok a, h1) -> (c ≫= f) h = f a h1.
Proof. intros H. unfold mbind, M_bind. by rewrite H. Qed.

Lemma bind_Panic {A B} (c : M A) (f : A -> M B) h e h1 :
  c h = (Panic e, h1) -> (c ≫= f) h = (Panic e, h1).
Proof. intros H. unfold mbind, M_bind. by rewrite H. Qed.

Lemma foldl_insert_entries (entries : list (string * string)) m :
  foldl (fun m e => <[e.1 := e.2]> m) m entries = list_to_map (reverse entries) ∪ m.
Proof.
  revert m; induction entries as [|[k v] entries IH]; intros m; simpl.
  - by rewrite (left_id_L ∅ (∪)).
  - rewrite IH, reverse_cons, list_to_map_app. simpl.
    rewrite <- (assoc_L (∪)). f_equal.
    by rewrite insert_empty, <- insert_union_singleton_l.
Qed.

Lemma entries_map_to_list m : entries_map (map_to_list m) = m.
Proof.
  unfold entries_map. rewrite foldl_insert_entries, (right_id_L ∅ (∪)).
  rewrite <- (list_to_map_to_list m) at 2.
  apply list_to_map_proper; [|apply reverse_Permutation].
  rewrite fmap_reverse, reverse_Permutation. apply NoDup_fst_map_to_list.
Qed.

Lemma contents_insert_eq h l m : contents (<[l := m]> h) (Some l) = m.
Proof. unfold contents. by rewrite lookup_insert_eq. Qed.

Lemma contents_insert_ne h l m ref :
  ref <> Some l -> contents (<[l := m]> h) ref = contents h ref.
Proof.
  intros Hne. destruct ref as [l'|]; [|done]. unfold contents.
  rewrite lookup_insert_ne; [done | congruence].
Qed.

Lemma valid_ref_fresh h ref :
  valid_ref h ref = true -> ref <> Some (fresh (dom h)).
Proof.
  destruct ref as [l|]; [|done]. simpl. intros Hl%bool_decide_eq_true [= ->].
  by apply (is_fresh (dom h)).
Qed.

Lemma copyMap_loop_spec (entries : list (string * string)) l h m :
  h !! l = Some m ->
  copyMap_loop entries (Some l) h
  = (Ok (), <[l := foldl (fun m e => <[e.1 := e.2]> m) m entries]> h).
Proof.
  revert h m; induction entries as [|[k v] entries IH]; intros h m Hl.
  - simpl. by rewrite insert_id.
  - cbn [copyMap_loop foldl fst snd].
    erewrite bind_Ok; [|reflexivity].
    erewrite IH; [|apply lookup_insert_eq].
    rewrite insert_insert_eq. unfold contents. by rewrite Hl.
Qed.

Lemma copyMap_spec ref h :
  copyMap ref h = (Ok (Some (fresh (dom h))), <[fresh (dom h) := contents h ref]> h).
Proof.
  unfold copyMap.
  erewrite bind_Ok; [|reflexivity].
  erewrite bind_Ok; [|reflexivity].
  erewrite bind_Ok; [|apply copyMap_loop_spec, lookup_insert_eq].
  rewrite insert_insert_eq. unfold mret, M_ret. do 2 f_equal.
  fold (entries_map (map_to_list (contents (<[fresh (dom h):=∅]> h) ref))).
  rewrite entries_map_to_list.
  destruct ref as [l|]; [|done]. unfold contents.
  destruct (decide (l = fresh (dom h))) as [->|Hne].
  - rewrite lookup_insert_eq.
    by rewrite (not_elem_of_dom_1 h (fresh (dom h)) (is_fresh (dom h))).
  - by rewrite lookup_insert_ne.
Qed.

End StoreFacts.

Section MutatorFacts.

Implicit Types (h : store) (l : loc) (m : gmap string string) (ref : mapref)
  (r : Request).

Lemma keeps_refl h : keeps h h.
Proof. by intros l _. Qed.

Lemma keeps_insert h h' l m : keeps h h' -> l ∉ dom h -> keeps h (<[l := m]> h').
Proof.
  intros Hk Hl l' Hl'. rewrite lookup_insert_ne; [by apply Hk|].
  by intros ->.
Qed.

Lemma keeps_contents h h' ref :
  keeps h h' -> valid_ref h ref = true -> contents h' ref = contents h ref.
Proof.
  intros Hk Hv. destruct ref as [l|]; [|done]. unfold contents, valid_ref in *.
  apply bool_decide_eq_true in Hv. by rewrite (Hk l Hv).
Qed.

Lemma keeps_read h h' r : keeps h h' -> valid h r = true -> read h' r = read h r.
Proof.
  intros Hk [Hh Hc]%andb_prop. unfold read.
  by rewrite (keeps_contents _ _ _ Hk Hh), (keeps_contents _ _ _ Hk Hc).
Qed.

Lemma index_two (parts : list string) :
  has_two parts = true ->
  index parts 0 = Ok (part 0 parts) /\ index parts 1 = Ok (part 1 parts).
Proof. by destruct parts as [|a [|b parts]]. Qed.

Lemma index_not_two (parts : list string) :
  has_two parts = false ->
  (exists e, index parts 0 = Panic e) \/
  (exists a e, index parts 0 = Ok a /\ index parts 1 = Panic e).
Proof. destruct parts as [|a [|b parts]]; [left | right | done]; simpl; eauto. Qed.

Lemma parseHeader_spec (line : string) :
  if header_well_formed line then parseHeader line = Ok (header_entry line)
  else exists e, parseHeader line = Panic e.
Proof.
  unfold header_well_formed, parseHeader, header_entry.
  destruct (has_two (SplitN line ":" 2)) eqn:Htwo.
  - destruct (index_two _ Htwo) as [-> ->]. done.
  - destruct (index_not_two _ Htwo) as [[e ->]|(a & e & -> & ->)]; simpl; eauto.
Qed.

(** The loop of [parseRawCookies] on the map at [l]: it writes to that map
    only; it returns when every cookie has its ["="], with the entries of
    the cookies added in their order, and panics otherwise. *)
Lemma parseRawCookies_loop_spec (cs : list string) l h m :
  h !! l = Some m ->
  (exists m', (parseRawCookies_loop cs (Some l) h).2 = <[l := m']> h)
  /\ if forallb (fun c => has_two (Split c "=")) cs
     then parseRawCookies_loop cs (Some l) h
          = (Ok (), <[l := foldl (fun m e => <[e.1 := e.2]> m) m (map cookie_entry cs)]> h)
     else exists e, (parseRawCookies_loop cs (Some l) h).1 = Panic e.
Proof.
  revert h m; induction cs as [|c cs IH]; intros h m Hl.
  - simpl. rewrite insert_id by done. split; [|done].
    exists m. by rewrite insert_id.
  - cbn [parseRawCookies_loop forallb map foldl].
    destruct (has_two (Split c "=")) eqn:Htwo; cbn [andb].
    + destruct (index_two _ Htwo) as [H0 H1].
      erewrite bind_Ok; [|unfold lift; by rewrite H0].
      erewrite bind_Ok; [|unfold lift; by rewrite H1].
      erewrite bind_Ok; [|reflexivity].
      cbv beta. unfold contents. rewrite Hl.
      set (m1 := <[part 0 (Split c "=") := Replace (part 1 (Split c "=")) dquote "%22" (-1)]> m).
      destruct (IH (<[l := m1]> h) m1 (lookup_insert_eq _ _ _)) as [[m' Hm'] Hres].
      split.
      * exists m'. by rewrite Hm', insert_insert_eq.
      * destruct (forallb _ cs).
        -- rewrite Hres, insert_insert_eq. done.
        -- done.
    + split.
      * exists m. rewrite insert_id by done.
        destruct (index_not_two _ Htwo) as [[e H0]|(a & e & H0 & H1)].
        -- erewrite bind_Panic; [done | unfold lift; by rewrite H0].
        -- erewrite bind_Ok; [|unfold lift; by rewrite H0].
           erewrite bind_Panic; [done | unfold lift; by rewrite H1].
      * destruct (index_not_two _ Htwo) as [[e H0]|(a & e & H0 & H1)].
        -- erewrite bind_Panic; [by eexists | unfold lift; by rewrite H0].
        -- erewrite bind_Ok; [|unfold lift; by rewrite H0].
           erewrite bind_Panic; [by eexists | unfold lift; by rewrite H1].
Qed.

(** [Clone]: both maps are copied into maps that the store did not hold. *)
Lemma Clone_spec r h :
  valid h r = true ->
  exists lh lc,
    (lh ∉ dom h) /\ (lc ∉ dom h) /\ lh <> lc
    /\ Clone r h
       = (Ok {| Method := Method r; RequestUri := RequestUri r; Path := Path r;
                Query := Query r; ProtocolVersion := ProtocolVersion r;
                Headers := Some lh; Cookies := Some lc; Body := Body r |},
          <[lc := contents h (Cookies r)]> (<[lh := contents h (Headers r)]> h)).
Proof.
  intros [Hh Hc]%andb_prop.
  set (lh := fresh (dom h)).
  set (h1 := <[lh := contents h (Headers r)]> h).
  set (lc := fresh (dom h1)).
  assert (lh ∉ dom h) as Hlh by apply is_fresh.
  assert (lc ∉ dom h1) as Hlc by apply is_fresh.
  assert (dom h1 = {[lh]} ∪ dom h) as Hdom by apply dom_insert_L.
  assert ((lc ∉ dom h) /\ lh <> lc) as [Hlc' Hne].
  { rewrite Hdom, elem_of_union, elem_of_singleton in Hlc.
    split; [tauto | intros Heq; apply Hlc; by left]. }
  exists lh, lc. do 3 (split; [done|]).
  unfold Clone.
  erewrite bind_Ok; [|apply copyMap_spec].
  erewrite bind_Ok; [|apply copyMap_spec].
  fold lh h1 lc. unfold mret, M_ret. do 2 f_equal.
  apply contents_insert_ne. by apply valid_ref_fresh.
Qed.

End MutatorFacts.

Local Ltac in_dom :=
  repeat match goal with x := _ : gmap _ _ |- _ => subst x end;
  rewrite ?dom_insert_L, ?elem_of_union, ?elem_of_singleton; auto.

Local Ltac read_fields :=
  unfold read, changed, set_Path, set_RequestUri, set_Query, set_Body, set_Cookies;
  cbn [Method RequestUri Path Query ProtocolVersion Headers Cookies Body
       fMethod fRequestUri fPath fQuery fProtocolVersion fHeaders fCookies fBody].

(** C4. A call of any of the seven mutators on a request whose maps are in
    the store leaves every map of the store as it was, so the request reads
    as before the call: its fields, its header map and its cookie map. The
    call returns exactly when its argument is accepted (the two mutators
    that parse a string panic on a cookie without "=" and on a header
    without a colon; all others always return). The request it returns
    reads as the original with the one requested component changed, and
    its header and cookie maps are two distinct maps that the store did not
    hold before the call. (The body is a byte slice that [Clone] shares
    with the original; no function of the package writes its bytes.) *)
Theorem C4_mutators_return_independent_copies
    (m : Mutator) (r : Request) (h : store) (Hvalid : valid h r = true) :
  let out := call m r h in
  keeps h out.2
  /\ read out.2 r = read h r
  /\ ((exists r', out.1 = Ok r') <-> accepts m = true)
  /\ (forall r', out.1 = Ok r' ->
        read out.2 r' = changed m (read h r)
        /\ exists lh lc,
             Headers r' = Some lh /\ Cookies r' = Some lc /\ lh <> lc
             /\ (lh ∉ dom h) /\ (lc ∉ dom h)
             /\ (lh ∈ dom out.2) /\ (lc ∈ dom out.2)).
Proof.
  cbv zeta.
  destruct (Clone_spec r h Hvalid) as (lh & lc & Hlh & Hlc & Hne & HClone).
  set (h2 := <[lc := contents h (Cookies r)]> (<[lh := contents h (Headers r)]> h)) in *.
  assert (keeps h h2) as Hk2.
  { apply keeps_insert; [apply keeps_insert; [apply keeps_refl | done] | done]. }
  assert (dom h2 = {[lc]} ∪ ({[lh]} ∪ dom h)) as Hdom2
    by (unfold h2; by rewrite !dom_insert_L).
  assert (contents h2 (Some lh) = contents h (Headers r)) as Hch.
  { unfold h2. rewrite contents_insert_ne by congruence. apply contents_insert_eq. }
  assert (contents h2 (Some lc) = contents h (Cookies r)) as Hcc
    by apply contents_insert_eq.
  assert (forall (res : result Request) h',
            keeps h h' ->
            (forall r', res = Ok r' ->
               read h' r' = changed m (read h r)
               /\ exists lh lc,
                    Headers r' = Some lh /\ Cookies r' = Some lc /\ lh <> lc
                    /\ (lh ∉ dom h) /\ (lc ∉ dom h)
                    /\ (lh ∈ dom h') /\ (lc ∈ dom h')) ->
            ((exists r', res = Ok r') <-> accepts m = true) ->
            call m r h = (res, h') ->
            keeps h (call m r h).2
            /\ read (call m r h).2 r = read h r
            /\ ((exists r', (call m r h).1 = Ok r') <-> accepts m = true)
            /\ (forall r', (call m r h).1 = Ok r' ->
                  read (call m r h).2 r' = changed m (read h r)
                  /\ exists lh lc,
                       Headers r' = Some lh /\ Cookies r' = Some lc /\ lh <> lc
                       /\ (lh ∉ dom h) /\ (lc ∉ dom h)
                       /\ (lh ∈ dom (call m r h).2) /\ (lc ∈ dom (call m r h).2)))
    as Hpack.
  { intros res h' Hk Hres Hacc ->. simpl. split; [done|].
    split; [by apply keeps_read|]. by split. }
  destruct m as [path|query|body|key val|key val|val|header];
    unfold call, WithPath, WithQuery, WithBody, WithHeader, WithCookie,
           WithCookieString, WithHeaderString in *.
  - eapply Hpack; [exact Hk2 | | | erewrite bind_Ok; [reflexivity | exact HClone]].
    + intros r' [= <-]. split.
      * read_fields. by rewrite Hch, Hcc.
      * exists lh, lc. repeat split; auto; in_dom.
    + split; [done | eauto].
  - eapply Hpack; [exact Hk2 | | | erewrite bind_Ok; [reflexivity | exact HClone]].
    + intros r' [= <-]. split.
      * read_fields. by rewrite Hch, Hcc.
      * exists lh, lc. repeat split; auto; in_dom.
    + split; [done | eauto].
  - eapply Hpack; [exact Hk2 | | | erewrite bind_Ok; [reflexivity | exact HClone]].
    + intros r' [= <-]. split.
      * read_fields. by rewrite Hch, Hcc.
      * exists lh, lc. repeat split; auto; in_dom.
    + split; [done | eauto].
  - eapply Hpack;
      [ | | | erewrite bind_Ok; [|exact HClone];
              erewrite bind_Ok; [reflexivity | reflexivity] ].
    + by apply keeps_insert.
    + intros r' [= <-]. split.
      * read_fields.
        rewrite contents_insert_eq, contents_insert_ne by congruence.
        by rewrite Hch, Hcc.
      * exists lh, lc. repeat split; auto; in_dom.
    + split; [done | eauto].
  - eapply Hpack;
      [ | | | erewrite bind_Ok; [|exact HClone];
              erewrite bind_Ok; [reflexivity | reflexivity] ].
    + by apply keeps_insert.
    + intros r' [= <-]. split.
      * read_fields.
        rewrite contents_insert_eq, contents_insert_ne by congruence.
        by rewrite Hch, Hcc.
      * exists lh, lc. repeat split; auto; in_dom.
    + split; [done | eauto].
  - set (l3 := fresh (dom h2)).
    assert (l3 ∉ dom h2) as Hl3 by apply is_fresh.
    assert ((l3 ∉ dom h) /\ l3 <> lh /\ l3 <> lc) as (Hl3h & Hl3lh & Hl3lc).
    { rewrite Hdom2, !elem_of_union, !elem_of_singleton in Hl3. tauto. }
    destruct (parseRawCookies_loop_spec (Split val "; ") l3 (<[l3 := ∅]> h2) ∅
                (lookup_insert_eq _ _ _)) as [[m' Hm'] Hloop].
    destruct (parseRawCookies_loop (Split val "; ") (Some l3) (<[l3 := ∅]> h2))
      as [res3 h3] eqn:Hrun.
    simpl in Hm'. rewrite insert_insert_eq in Hm'. subst h3.
    assert (forall B (k : unit -> M B),
              (parseRawCookies (Some l3) val ≫= k) (<[l3 := ∅]> h2)
              = match res3 with
                | Ok u => k u (<[l3 := m']> h2)
                | Panic e => (Panic e, <[l3 := m']> h2)
                end) as Hbind.
    { intros B k. unfold mbind, M_bind, parseRawCookies. rewrite Hrun.
      by destruct res3. }
    set (r3 := set_Cookies
                 {| Method := Method r; RequestUri := RequestUri r; Path := Path r;
                    Query := Query r; ProtocolVersion := ProtocolVersion r;
                    Headers := Some lh; Cookies := Some lc; Body := Body r |}
                 (Some l3)).
    eapply (Hpack (match res3 with Ok _ => Ok r3 | Panic e => Panic e end)
                  (<[l3 := m']> h2));
      [ | | | erewrite bind_Ok; [|exact HClone];
              erewrite bind_Ok; [|reflexivity];
              cbv beta zeta; cbn [set_Cookies Cookies]; fold l3 h2;
              rewrite Hbind; by destruct res3 ].
    + by apply keeps_insert.
    + intros r'. unfold accepts, cookies_well_formed in *.
      destruct (forallb _ (Split val "; ")).
      * injection Hloop as -> Hm. intros [= <-]. subst r3. split.
        -- read_fields.
           rewrite contents_insert_eq, contents_insert_ne by congruence.
           rewrite Hch. f_equal.
           apply (f_equal (fun s : store => s !! l3)) in Hm.
           rewrite !lookup_insert_eq in Hm. by injection Hm as ->.
        -- exists lh, l3. repeat split; auto; in_dom.
      * destruct Hloop as [e He]. simpl in He. by subst res3.
    + unfold accepts, cookies_well_formed in *.
      destruct (forallb _ (Split val "; ")).
      * injection Hloop as -> Hm. split; [done | eauto].
      * destruct Hloop as [e He]. simpl in He. subst res3.
        split; [by intros [? ?] | done].
  - pose proof (parseHeader_spec header) as Hparse.
    destruct (header_well_formed header) eqn:Hwf.
    + destruct (header_entry header) as [k v] eqn:Hentry.
      eapply Hpack;
        [ | | | erewrite bind_Ok; [|unfold lift; by rewrite Hparse];
                cbv beta iota;
                erewrite bind_Ok; [|exact HClone];
                erewrite bind_Ok; [reflexivity | reflexivity] ].
      * by apply keeps_insert.
      * intros r' [= <-]. split.
        -- read_fields. rewrite Hentry. cbn [fst snd].
           rewrite contents_insert_eq, contents_insert_ne by congruence.
           by rewrite Hch, Hcc.
        -- exists lh, lc. repeat split; auto; in_dom.
      * unfold accepts. rewrite Hwf. split; [done | eauto].
    + destruct Hparse as [e He].
      eapply Hpack;
        [ | | | erewrite bind_Panic; [reflexivity | unfold lift; by rewrite He] ].
      * apply keeps_refl.
      * done.
      * unfold accepts. rewrite Hwf. split; [by intros [? ?] | done].
Qed.

(** ** Parsing a raw request *)

Section ParseFacts.

Implicit Types (h : store) (l : loc) (m : gmap string string) (s raw : string).

Lemma HasPrefix_length s p :
  HasPrefix s p = true -> (String.length p <= String.length s)%nat.
Proof.
  revert s; induction p as [|a p IH]; intros s; simpl; [lia|].
  destruct s as [|b s]; [done|]. destruct (Ascii.eqb a b); [|done].
  intros H%IH. simpl. lia.
Qed.

Lemma find_bound s sub i :
  find s sub = Some i -> (i + String.length sub <= String.length s)%nat.
Proof.
  revert i; induction s as [|a s IH]; intros i; simpl.
  - destruct (HasPrefix "" sub) eqn:Hp; [|done].
    intros [= <-]. by apply HasPrefix_length in Hp.
  - destruct (HasPrefix (String a s) sub) eqn:Hp.
    + intros [= <-]. by apply HasPrefix_length in Hp.
    + destruct (find s sub) as [j|]; [|done]. simpl. intros [= <-].
      specialize (IH j eq_refl). lia.
Qed.

Lemma HasPrefix_decompose s p :
  HasPrefix s p = true -> s = p +:+ drop (String.length p) s.
Proof.
  revert s; induction p as [|a p IH]; intros s; simpl; [by destruct s|].
  destruct s as [|b s]; [done|]. destruct (Ascii.eqb_spec a b) as [->|]; [|done].
  intros H%IH. simpl. by f_equal.
Qed.

(** The string around the occurrence that [find] reports. *)
Lemma find_decompose s sub i :
  find s sub = Some i ->
  s = take i s +:+ sub +:+ drop (i + String.length sub) s.
Proof.
  revert i; induction s as [|a s IH]; intros i; simpl.
  - destruct (HasPrefix "" sub) eqn:Hp; [|done].
    intros [= <-]. simpl. by apply HasPrefix_decompose.
  - destruct (HasPrefix (String a s) sub) eqn:Hp.
    + intros [= <-]. simpl. by apply HasPrefix_decompose.
    + destruct (find s sub) as [j|]; [|done]. simpl. intros [= <-].
      simpl. f_equal. by apply IH.
Qed.

Lemma parseRequestUri_split p q :
  free_of "?" p = true -> p <> EmptyString ->
  parseRequestUri (p +:+ "?" +:+ q) = (p, q).
Proof.
  intros Hp Hne. unfold parseRequestUri, Index.
  change ("?" +:+ q) with (String "?" q). rewrite (find_char_at _ _ _ Hp).
  destruct (Z.gtb_spec (Z.of_nat (String.length p)) 0) as [_|Hle].
  - rewrite Nat2Z.id.
    replace (Z.to_nat (Z.of_nat (String.length p) + 1))
      with (String.length p + 1)%nat by lia.
    by rewrite str_take_app, str_drop_plus, str_drop_app.
  - destruct p; [done | simpl in Hle; lia].
Qed.

Lemma parseRequestUri_no_query s :
  free_of "?" s = true -> parseRequestUri s = (s, EmptyString).
Proof.
  intros Hs. unfold parseRequestUri, Index. by rewrite (find_char_none _ _ Hs).
Qed.

Lemma parseRequestUri_leading q :
  parseRequestUri ("?" +:+ q) = ("?" +:+ q, EmptyString).
Proof. reflexivity. Qed.

Lemma index_zero (parts : list string) :
  parts <> [] -> index parts 0 = Ok (part 0 parts).
Proof. by destruct parts. Qed.

Lemma parseRequestLine_spec s :
  if (3 <=? length (Split s " "))%nat
  then parseRequestLine s
       = Ok (part 0 (Split s " "), part 1 (Split s " "), part 2 (Split s " "))
  else exists e, parseRequestLine s = Panic e.
Proof.
  unfold parseRequestLine. destruct (Split s " ") as [|a [|b [|c l]]]; simpl; eauto.
Qed.

Lemma extractBody_spec raw :
  if Index raw twoRns + len twoRns <=? len raw
  then extractBody raw = Ok (drop (Z.to_nat (Index raw twoRns + len twoRns)) raw)
  else exists e, extractBody raw = Panic e.
Proof.
  unfold extractBody, slice_from.
  assert (-1 <= Index raw twoRns) as Hge by (unfold Index; destruct (find _ _); lia).
  destruct (Z.leb_spec (Index raw twoRns + len twoRns) (len raw)) as [Hle|Hgt].
  - destruct (Z.ltb_spec (Index raw twoRns + len twoRns) 0) as [Hneg|_];
      [change (len twoRns) with 4 in Hneg; lia|].
    by destruct (Z.ltb_spec (len raw) (Index raw twoRns + len twoRns)); [lia|].
  - destruct (Z.ltb_spec (Index raw twoRns + len twoRns) 0); simpl; [eauto|].
    destruct (Z.ltb_spec (len raw) (Index raw twoRns + len twoRns)); [eauto | lia].
Qed.

(** The loop of [parseHeaders] on the map at [l]: the entries of the lines
    up to the first empty one, when each has its colon. *)
Lemma parseHeaders_loop_spec (lines : list string) l h m :
  h !! l = Some m ->
  if forallb header_well_formed (up_to_empty lines)
  then parseHeaders_loop lines (Some l) h
       = (Ok (), <[l := foldl (fun m e => <[e.1 := e.2]> m) m
                          (map header_entry (up_to_empty lines))]> h)
  else exists e h', parseHeaders_loop lines (Some l) h = (Panic e, h').
Proof.
  revert h m; induction lines as [|line lines IH]; intros h m Hl.
  - simpl. by rewrite insert_id.
  - cbn [parseHeaders_loop up_to_empty].
    destruct (len line =? 0); [simpl; by rewrite insert_id|].
    cbn [forallb map foldl].
    pose proof (parseHeader_spec line) as Hparse.
    destruct (header_well_formed line); cbn [andb].
    + erewrite bind_Ok; [|unfold lift; by rewrite Hparse].
      destruct (header_entry line) as [k v]. cbv beta iota.
      erewrite bind_Ok; [|reflexivity]. cbv beta.
      unfold contents. rewrite Hl. cbn [fst snd].
      specialize (IH (<[l := <[k := v]> m]> h) (<[k := v]> m) (lookup_insert_eq _ _ _)).
      destruct (forallb _ (up_to_empty lines)).
      * by rewrite IH, insert_insert_eq.
      * destruct IH as (e & h' & ->). eauto.
    + destruct Hparse as [e He].
      erewrite bind_Panic; [eauto | unfold lift; by rewrite He].
Qed.

End ParseFacts.

Section ParseSpec.

Implicit Types (h : store) (l : loc) (m : gmap string string) (raw : string).

Lemma parseHeaders_spec raw h :
  if forallb header_well_formed (header_lines raw)
  then parseHeaders raw h
       = (Ok (Some (fresh (dom h))), <[fresh (dom h) := header_map raw]> h)
  else exists e h', parseHeaders raw h = (Panic e, h').
Proof.
  unfold parseHeaders, header_lines, header_map, entries_map.
  pose proof (parseHeaders_loop_spec (tail (Split raw crlf)) (fresh (dom h))
                (<[fresh (dom h) := ∅]> h) ∅ (lookup_insert_eq _ _ _)) as Hloop.
  fold (header_lines raw) in *.
  destruct (forallb header_well_formed (header_lines raw)).
  - erewrite bind_Ok; [|reflexivity].
    erewrite bind_Ok; [|exact Hloop].
    by rewrite insert_insert_eq.
  - destruct Hloop as (e & h' & Hloop).
    erewrite bind_Ok; [|reflexivity].
    erewrite bind_Panic; [eauto | exact Hloop].
Qed.

(** [Parse] returns exactly on the raw requests that [parses] accepts; the
    request it returns reads as [parsed] says, its two maps are new, and
    the maps that the store held are as they were. *)
Lemma Parse_spec raw h :
  if parses raw
  then exists r h' lh lc,
      http.Parse raw h = (Ok r, h')
      /\ read h' r = parsed raw
      /\ keeps h h'
      /\ Headers r = Some lh /\ Cookies r = Some lc /\ lh <> lc
      /\ (lh ∉ dom h) /\ (lc ∉ dom h)
  else exists e h', http.Parse raw h = (Panic e, h').
Proof.
  unfold parses, http.Parse.
  erewrite bind_Ok;
    [|unfold lift; rewrite index_zero; [reflexivity | apply Split_nonempty]].
  pose proof (parseRequestLine_spec (part 0 (Split raw crlf))) as Hline.
  destruct (3 <=? length (Split (part 0 (Split raw crlf)) " "))%nat; cbn [andb];
    [|destruct Hline as [e He];
      erewrite bind_Panic; [eauto | unfold lift; by rewrite He]].
  erewrite bind_Ok; [|unfold lift; by rewrite Hline]. cbv beta iota.
  destruct (parseRequestUri (part 1 (Split (part 0 (Split raw crlf)) " ")))
    as [path query] eqn:Huri.
  pose proof (parseHeaders_spec raw h) as Hheaders.
  destruct (forallb header_well_formed (header_lines raw)); cbn [andb];
    [|destruct Hheaders as (e & h' & He); erewrite bind_Panic; [eauto | exact He]].
  set (lh := fresh (dom h)) in *.
  set (h1 := <[lh := header_map raw]> h) in *.
  set (lc := fresh (dom h1)).
  assert (lh ∉ dom h) as Hlh by apply is_fresh.
  assert (lc ∉ dom h1) as Hlc1 by apply is_fresh.
  assert ((lc ∉ dom h) /\ lh <> lc) as [Hlc Hne].
  { unfold h1 in Hlc1. rewrite dom_insert_L, elem_of_union, elem_of_singleton in Hlc1.
    split; [tauto | intros Heq; apply Hlc1; by left]. }
  set (h2 := <[lc := ∅]> h1).
  assert (contents h2 (Some lh) = header_map raw) as Hch2.
  { unfold h2, h1. rewrite contents_insert_ne by congruence. apply contents_insert_eq. }
  erewrite bind_Ok; [|exact Hheaders]. cbv beta.
  erewrite bind_Ok; [|reflexivity]. cbv beta. fold lc h2.
  erewrite bind_Ok; [|reflexivity]. cbv beta. rewrite Hch2.
  pose proof (extractBody_spec raw) as Hbody.
  destruct (header_map raw !! "Cookie") as [val|] eqn:Hcookie.
  - set (h3 := <[lh := delete "Cookie" (header_map raw)]> h2).
    assert (h3 !! lc = Some ∅) as Hlc3.
    { unfold h3, h2. rewrite lookup_insert_ne by done. apply lookup_insert_eq. }
    destruct (parseRawCookies_loop_spec (Split val "; ") lc h3 ∅ Hlc3) as [_ Hloop].
    unfold cookies_well_formed.
    assert ((map_delete (Some lh) "Cookie";; parseRawCookies (Some lc) val) h2
            = parseRawCookies_loop (Split val "; ") (Some lc) h3) as Hstep.
    { erewrite bind_Ok; [|reflexivity]. cbv beta. by rewrite Hch2. }
    destruct (forallb _ (Split val "; ")); cbn [andb].
    + rewrite Hloop in Hstep. fold (entries_map (map cookie_entry (Split val "; "))) in Hstep.
      fold (cookie_map val) in Hstep.
      destruct (Index raw twoRns + len twoRns <=? len raw).
      * erewrite bind_Ok; [|exact Hstep].
        erewrite bind_Ok; [|unfold lift; by rewrite Hbody].
        eexists _, _, lh, lc. split; [reflexivity|].
        split; [|split; [|by repeat split]].
        -- unfold read, parsed; cbn [Method RequestUri Path Query ProtocolVersion
                                     Headers Cookies Body].
           rewrite Huri, Hcookie. cbn [fst snd]. f_equal.
           ++ unfold h3. rewrite contents_insert_ne by congruence.
              apply contents_insert_eq.
           ++ apply contents_insert_eq.
        -- unfold h3, h2, h1. by repeat apply keeps_insert; try apply keeps_refl.
      * destruct Hbody as [e He].
        erewrite bind_Ok; [|exact Hstep].
        erewrite bind_Panic; [eauto | unfold lift; by rewrite He].
    + destruct Hloop as [e He].
      destruct (parseRawCookies_loop (Split val "; ") (Some lc) h3) as [res h4] eqn:Hrun.
      simpl in He. subst res.
      erewrite bind_Panic; [eauto | exact Hstep].
  - cbn [andb].
    destruct (Index raw twoRns + len twoRns <=? len raw).
    + erewrite bind_Ok; [|reflexivity].
      erewrite bind_Ok; [|unfold lift; by rewrite Hbody].
      eexists _, _, lh, lc. split; [reflexivity|].
      split; [|split; [|by repeat split]].
      * unfold read, parsed; cbn [Method RequestUri Path Query ProtocolVersion
                                  Headers Cookies Body].
        rewrite Huri, Hcookie, Hch2. cbn [fst snd]. f_equal.
        -- by rewrite delete_id.
        -- apply contents_insert_eq.
      * unfold h2, h1. by repeat apply keeps_insert; try apply keeps_refl.
    + destruct Hbody as [e He].
      erewrite bind_Ok; [|reflexivity].
      erewrite bind_Panic; [eauto | unfold lift; by rewrite He].
Qed.

End ParseSpec.

Lemma C4_mutators_return_independent_copies_witness :
  let h : store := {[ 1%positive := {[ "Host" := "h" ]}; 2%positive := ∅ ]} in
  let r := {| Method := "GET"; RequestUri := "/a"; Path := "/a"; Query := "";
              ProtocolVersion := "HTTP/1.1"; Headers := Some 1%positive;
              Cookies := Some 2%positive; Body := "" |} in
  let m := CallWithHeader "X" "1" in
  let out := call m r h in
  keeps h out.2
  /\ read out.2 r = read h r
  /\ ((exists r', out.1 = Ok r') <-> accepts m = true)
  /\ (forall r', out.1 = Ok r' ->
        read out.2 r' = changed m (read h r)
        /\ exists lh lc,
             Headers r' = Some lh /\ Cookies r' = Some lc /\ lh <> lc
             /\ (lh ∉ dom h) /\ (lc ∉ dom h)
             /\ (lh ∈ dom out.2) /\ (lc ∈ dom out.2)).
Proof.
  apply (C4_mutators_return_independent_copies
           (CallWithHeader "X" "1")
           {| Method := "GET"; RequestUri := "/a"; Path := "/a"; Query := "";
              ProtocolVersion := "HTTP/1.1"; Headers := Some 1%positive;
              Cookies := Some 2%positive; Body := "" |}
           {[ 1%positive := {[ "Host" := "h" ]}; 2%positive := ∅ ]}).
  vm_compute. reflexivity.
Defined.

(** C7, as the code has it: [parseRequestUri] cuts the request URI at its
    first "?" only when that "?" is not its first byte. On a raw request
    that [Parse] accepts and that holds a double CRLF, the request returned
    has the first three words of the first line as method, request URI and
    protocol version; its path and query are the request URI cut at the
    first "?" when the part before it is not empty, and the whole request
    URI and the empty query when there is no "?" or when the request URI
    starts with one; its body is what follows the first double CRLF. The
    example of the specification parses to GET, /a, x=1, HTTP/1.1 and an
    empty body. *)
Theorem C7_parse_reads_request_line_and_body
    (raw : string) (h : store)
    (Hparses : parses raw = true) (Hblank : 0 <= Index raw twoRns) :
  (exists r h',
     http.Parse raw h = (Ok r, h')
     /\ Method r = part 0 (Split (part 0 (Split raw crlf)) " ")
     /\ RequestUri r = part 1 (Split (part 0 (Split raw crlf)) " ")
     /\ ProtocolVersion r = part 2 (Split (part 0 (Split raw crlf)) " ")
     /\ (forall method uri version,
           Split (part 0 (Split raw crlf)) " " = [method; uri; version] ->
           Method r = method /\ RequestUri r = uri /\ ProtocolVersion r = version)
     /\ (forall p q,
           RequestUri r = p +:+ "?" +:+ q -> free_of "?" p = true ->
           p <> EmptyString -> Path r = p /\ Query r = q)
     /\ (free_of "?" (RequestUri r) = true ->
           Path r = RequestUri r /\ Query r = EmptyString)
     /\ (forall q,
           RequestUri r = "?" +:+ q -> Path r = RequestUri r /\ Query r = EmptyString)
     /\ raw = take (Z.to_nat (Index raw twoRns)) raw +:+ twoRns +:+ Body r)
  /\ (exists r h',
        http.Parse example_request ∅ = (Ok r, h')
        /\ Method r = "GET" /\ Path r = "/a" /\ Query r = "x=1"
        /\ ProtocolVersion r = "HTTP/1.1" /\ Body r = EmptyString).
Proof.
  split; [|by eexists _, _].
  pose proof (Parse_spec raw h) as Hspec. rewrite Hparses in Hspec.
  destruct Hspec as (r & h' & lh & lc & HParse & Hread & _).
  exists r, h'. split; [done|].
  unfold read, parsed in Hread.
  injection Hread as HM HU HP HQ HV _ _ HB.
  rewrite HM, HU, HV. do 3 (split; [done|]).
  split; [by intros method uri version ->|].
  split; [|split; [|split]].
  - intros p q Huri Hp Hne. rewrite HP, HQ, Huri.
    by rewrite parseRequestUri_split.
  - intros Hfree. by rewrite HP, HQ, parseRequestUri_no_query.
  - intros q Huri. by rewrite HP, HQ, Huri.
  - rewrite HB. unfold Index in *.
    destruct (find raw twoRns) as [i|] eqn:Hfind; [|lia].
    rewrite Nat2Z.id.
    replace (Z.to_nat (Z.of_nat i + len twoRns)) with (i + String.length twoRns)%nat
      by (unfold len; lia).
    by apply find_decompose.
Qed.

Lemma C7_parse_reads_request_line_and_body_witness :
  exists r h',
    http.Parse example_request ∅ = (Ok r, h')
    /\ Method r = "GET" /\ RequestUri r = "/a?x=1" /\ ProtocolVersion r = "HTTP/1.1"
    /\ Path r = "/a" /\ Query r = "x=1" /\ Body r = EmptyString.
Proof.
  destruct (proj1 (C7_parse_reads_request_line_and_body example_request ∅
                     eq_refl ltac:(by vm_compute)))
    as (r & h' & HParse & HM & HU & HV & _ & Hsplit & _ & _ & HB).
  exists r, h'. split; [exact HParse|].
  destruct (Hsplit "/a" "x=1" HU eq_refl ltac:(discriminate)) as [HP HQ].
  repeat split; try assumption.
  apply (String.app_inj (take (Z.to_nat (Index example_request twoRns)) example_request
                         +:+ twoRns)).
  rewrite str_app_assoc, <- HB. reflexivity.
Defined.

(** C7 as stated fails on a request URI that starts with "?": the code
    keeps the whole of "?x=1" as the path and leaves the query empty,
    where a cut at the first "?" gives the empty path and the query
    "x=1". *)
Lemma C7_leading_question_mark_counterexample :
  exists r h',
    http.Parse leading_question_mark_request ∅ = (Ok r, h')
    /\ RequestUri r = "" +:+ "?" +:+ "x=1"
    /\ Path r = "?x=1" /\ Query r = EmptyString.
Proof. by eexists _, _. Qed.

(** C8. On a raw request whose headers hold a [Cookie] header (the name
    as written, the last one when there are several), [Parse]
    returns exactly when the request is one that [parses] accepts; the
    request it returns has no "Cookie" key in its header map, which is the
    map of the header lines without that key, and its cookie map holds the
    pieces of the header value between "; ", each cut at "=", with every
    double quote of the value replaced by "%22". *)
Theorem C8_cookie_header_becomes_cookie_map
    (raw : string) (h : store) (val : string)
    (Hcookie : header_map raw !! "Cookie" = Some val) :
  ((exists r h', http.Parse raw h = (Ok r, h')) <-> parses raw = true)
  /\ (forall r h',
        http.Parse raw h = (Ok r, h') ->
        contents h' (Headers r) !! "Cookie" = None
        /\ contents h' (Headers r) = delete "Cookie" (header_map raw)
        /\ contents h' (Cookies r) = cookie_map val).
Proof.
  pose proof (Parse_spec raw h) as Hspec.
  destruct (parses raw).
  - destruct Hspec as (r & h' & lh & lc & HParse & Hread & _).
    split; [split; [done | eauto]|].
    intros r1 h1. rewrite HParse. intros [= <- <-].
    unfold read, parsed in Hread. injection Hread as _ _ _ _ _ HH HC _.
    rewrite HH, HC, Hcookie. split; [apply lookup_delete_eq | done].
  - destruct Hspec as (e & h' & HParse).
    split; [split; [|done]|].
    + intros (r1 & h1 & H1). by rewrite HParse in H1.
    + intros r1 h1 H1. by rewrite HParse in H1.
Qed.

Lemma C8_cookie_header_becomes_cookie_map_witness :
  exists r h',
    http.Parse cookie_request ∅ = (Ok r, h')
    /\ contents h' (Headers r) !! "Cookie" = None
    /\ contents h' (Headers r) = {[ "Host" := "h" ]}
    /\ contents h' (Cookies r) = {[ "a" := "1"; "b" := "%22x%22" ]}.
Proof.
  destruct (C8_cookie_header_becomes_cookie_map cookie_request ∅
              ("a=1; b=" +:+ dquote +:+ "x" +:+ dquote) eq_refl)
    as [[_ Hreturns] Hmaps].
  destruct (Hreturns eq_refl) as (r & h' & HParse).
  destruct (Hmaps r h' HParse) as (Hnone & Hheaders & Hcookies).
  exists r, h'. split; [exact HParse|]. split; [exact Hnone|].
  split; [rewrite Hheaders | rewrite Hcookies]; vm_compute; reflexivity.
Defined.

Section UriFacts.

Implicit Types (h : store) (r : Request) (s p : string).

Lemma Replace_prefix p rest new : Replace (p +:+ rest) p new 1 = new +:+ rest.
Proof.
  unfold Replace. destruct (String.eqb_spec p new) as [->|Hne]; [done|].
  cbn [orb Z.eqb Z.ltb Z.compare].
  destruct p as [|a p].
  - simpl. by destruct rest.
  - change (Z.to_nat 1) with 1%nat. cbn [replace_loop].
    change (find (String a p +:+ rest) (String a p))
      with (if HasPrefix (String a p +:+ rest) (String a p) then Some 0%nat
            else option_map S (find (p +:+ rest) (String a p))).
    rewrite HasPrefix_app. cbn [take Nat.add].
    by rewrite str_drop_app.
Qed.

(** [WithPath] keeps the request URI consistent with the path and the
    query. *)
Lemma WithPath_keeps_uri_consistent r h path r' h' :
  valid h r = true -> uri_consistent r = true ->
  WithPath r path h = (Ok r', h') -> uri_consistent r' = true.
Proof.
  intros Hvalid Hcons.
  destruct (Clone_spec r h Hvalid) as (lh & lc & _ & _ & _ & HClone).
  unfold WithPath. erewrite bind_Ok; [|exact HClone].
  intros [= <- _]. unfold uri_consistent in *.
  cbn [set_Path set_RequestUri Query RequestUri Path] in *.
  destruct (Query r) as [|c q].
  - apply String.eqb_eq in Hcons. rewrite Hcons.
    replace (Replace (Path r) (Path r) path 1)
      with (Replace (Path r +:+ "") (Path r) path 1) by (by rewrite str_app_nil).
    rewrite Replace_prefix, str_app_nil. apply String.eqb_refl.
  - apply String.eqb_eq in Hcons. rewrite Hcons, Replace_prefix.
    apply String.eqb_refl.
Qed.


End UriFacts.

(** C5 at a failing input: the request parsed from a raw request without a
    query is consistent, and [WithQuery] on it puts the new query in front
    of the request URI, since [strings.Replace] with an empty old string
    inserts at the start: the request URI becomes "x=1/a" where the
    invariant asks for "/a?x=1". *)
Lemma C5_WithQuery_breaks_uri_consistency :
  exists r h r' h',
    http.Parse no_query_request ∅ = (Ok r, h)
    /\ RequestUri r = "/a" /\ Path r = "/a" /\ Query r = EmptyString
    /\ uri_consistent r = true
    /\ WithQuery r "x=1" h = (Ok r', h')
    /\ RequestUri r' = "x=1/a" /\ Path r' = "/a" /\ Query r' = "x=1"
    /\ uri_consistent r' = false.
Proof. eexists _, _, _, _. split; [reflexivity|]. by repeat split. Qed.

(** * Further properties *)

(** ** The parser of [matchlang] as a function of the token list *)

(** Induction on a list by steps of four. *)
Lemma list_ind_by_four {A} (P : list A -> Prop) :
  P [] -> (forall x, P [x]) -> (forall x y, P [x; y]) ->
  (forall x y z, P [x; y; z]) -> (forall x y z w, P [x; y; z; w]) ->
  (forall x y z w v l, P (v :: l) -> P (x :: y :: z :: w :: v :: l)) ->
  forall l, P l.
Proof.
  intros H0 H1 H2 H3 H4 Hstep l.
  assert (forall n l, (length l <= n)%nat -> P l) as Hall; [|by apply (Hall (length l))].
  clear l. induction n as [|n IH]; intros l Hl.
  - destruct l; [done | simpl in Hl; lia].
  - destruct l as [|x [|y [|z [|w [|v l]]]]]; auto.
    apply Hstep, IH. simpl in *. lia.
Qed.

Section ParserGroups.

Implicit Types (toks pre rest : list LexToken) (p : Parser) (a : Ast).

Lemma consume_three toks q a fuel :
  consume_loop (3 + fuel)
    {| tokens := toks; pos := q; state := ParserConsumingState; ast := a |}
  = consume_loop fuel
      {| tokens := toks; pos := q + 3; state := ParserConsumedRightState; ast := a |}.
Proof.
  change (3 + fuel)%nat with (S (S (S fuel))). cbn [consume_loop].
  rewrite consume_Consuming. cbn [consume_loop].
  rewrite consume_ConsumedLeft. cbn [consume_loop].
  rewrite consume_ConsumedOperator.
  by replace (q + 1 + 1 + 1) with (q + 3) by lia.
Qed.

Lemma index_app_r pre rest (i : nat) :
  index (pre ++ rest) (Z.of_nat (length pre) + Z.of_nat i)
  = match rest !! i with
    | Some x => Ok x
    | None => Panic (IndexOutOfRange (Z.of_nat (length pre) + Z.of_nat i)
                                     (length (pre ++ rest)))
    end.
Proof.
  unfold index.
  destruct (Z.ltb_spec (Z.of_nat (length pre) + Z.of_nat i) 0); [lia|].
  replace (Z.to_nat (Z.of_nat (length pre) + Z.of_nat i)) with (length pre + i)%nat by lia.
  by rewrite lookup_app_r, Nat.add_sub' by lia.
Qed.

(** The fourth call of a turn, on the tokens [rest] that follow [pre]. *)
Lemma consume_ConsumedRight_app pre rest a :
  consume {| tokens := pre ++ rest; pos := Z.of_nat (length pre) + 3;
             state := ParserConsumedRightState; ast := a |}
  = (identifier ← index (pre ++ rest) (Z.of_nat (length pre) + Z.of_nat 0);
     operator ← index (pre ++ rest) (Z.of_nat (length pre) + Z.of_nat 1);
     literal ← index (pre ++ rest) (Z.of_nat (length pre) + Z.of_nat 2);
     Ok (true,
         {| tokens := pre ++ rest; pos := Z.of_nat (length pre) + 4;
            state := if Z.of_nat (length pre) + 3 <? Z.of_nat (length (pre ++ rest)) - 1
                     then ParserConsumingState else ParserDoneState;
            ast := comparison_of (identifier, operator, literal) |})).
Proof.
  unfold consume, consume_switch; cbn [state tokens pos].
  replace (Z.of_nat (length pre) + Z.of_nat 0)
    with (Z.of_nat (length pre) + 3 - 3) by lia.
  replace (Z.of_nat (length pre) + Z.of_nat 1)
    with (Z.of_nat (length pre) + 3 - 2) by lia.
  replace (Z.of_nat (length pre) + Z.of_nat 2)
    with (Z.of_nat (length pre) + 3 - 1) by lia.
  replace (Z.of_nat (length pre) + 4) with (Z.of_nat (length pre) + 3 + 1) by lia.
  destruct (Z.of_nat (length pre) + 3 <? Z.of_nat (length (pre ++ rest)) - 1);
    cbn [with_state tokens pos state ast];
    (destruct (index (pre ++ rest) (Z.of_nat (length pre) + 3 - 3)); [|reflexivity]);
    (destruct (index (pre ++ rest) (Z.of_nat (length pre) + 3 - 2)); [|reflexivity]);
    (destruct (index (pre ++ rest) (Z.of_nat (length pre) + 3 - 1)); reflexivity).
Qed.

(** The loop from the start of a group is [last_group] on the tokens that
    are left. *)
Lemma consume_loop_last_group rest :
  forall pre a fuel,
    (length rest + 5 <= fuel)%nat ->
    ast_of (consume_loop fuel
              {| tokens := pre ++ rest; pos := Z.of_nat (length pre);
                 state := ParserConsumingState; ast := a |})
    = Some (last_group (length pre) (length (pre ++ rest)) rest).
Proof.
  induction rest as [|x|x y|x y z|x y z w|x y z w v rest IH] using list_ind_by_four;
    intros pre a fuel Hfuel;
    (replace fuel with (3 + S (fuel - 4))%nat by (simpl in Hfuel; lia));
    rewrite consume_three; cbn [consume_loop];
    rewrite consume_ConsumedRight_app, !index_app_r;
    cbn [lookup list_lookup mbind result_bind last_group length].
  - cbn [ast_of]. do 3 f_equal. lia.
  - cbn [ast_of]. do 3 f_equal. lia.
  - cbn [ast_of]. do 3 f_equal. lia.
  - rewrite length_app; cbn [length].
    destruct (Z.ltb_spec (Z.of_nat (length pre) + 3) (Z.of_nat (length pre + 3) - 1));
      [lia|].
    destruct (fuel - 4)%nat eqn:Hf; [simpl in Hfuel; lia|].
    cbn [consume_loop]. by rewrite consume_Done.
  - rewrite length_app; cbn [length].
    destruct (Z.ltb_spec (Z.of_nat (length pre) + 3) (Z.of_nat (length pre + 4) - 1));
      [lia|].
    destruct (fuel - 4)%nat eqn:Hf; [simpl in Hfuel; lia|].
    cbn [consume_loop]. by rewrite consume_Done.
  - rewrite length_app; cbn [length].
    destruct (Z.ltb_spec (Z.of_nat (length pre) + 3)
                (Z.of_nat (length pre + S (S (S (S (S (length rest)))))) - 1)); [|lia].
    specialize (IH (pre ++ [x; y; z; w]) (comparison_of (x, y, z)) (fuel - 4)%nat).
    rewrite <- !(assoc_L (++)) in IH. cbn [app] in IH.
    rewrite !length_app in IH. cbn [length] in IH.
    replace (Z.of_nat (length pre + 4)) with (Z.of_nat (length pre) + 4) in IH by lia.
    rewrite IH by (cbn [length] in *; lia).
    by replace (length pre + 4 + 0)%nat with (length pre + 4)%nat by lia.
Qed.

End ParserGroups.

Lemma parse_tokens_last_group (toks : list LexToken) :
  parse_tokens toks = Some (last_group 0 (length toks) toks).
Proof.
  unfold parse_tokens, new_parser.
  pose proof (consume_loop_last_group toks [] nilast (4 * length toks + 5)) as H.
  cbn [app length] in H. change (Z.of_nat 0) with 0 in H.
  unfold ast_of in H. apply H. lia.
Qed.

(** X1. The loop of [Parse] ends on every input, and its outcome is that
    of reading the tokens in groups of four: the comparison of the first
    three tokens of the last group when that group has three or four
    tokens, and an index out of range at the first missing position when it
    has fewer (the empty input included). *)
Theorem Parse_reads_groups_of_four (lex : string -> list LexToken) (s : string) :
  matchlang.Parse lex s = Some (last_group 0 (length (lex s)) (lex s)).
Proof. apply parse_tokens_last_group. Qed.

Lemma last_group_returns (toks : list LexToken) (offset total : nat) :
  (exists a, last_group offset total toks = Ok a) <->
  (length toks mod 4 = 3 \/ (length toks mod 4 = 0 /\ length toks <> 0))%nat.
Proof.
  revert offset.
  induction toks as [|x|x y|x y z|x y z w|x y z w v rest IH] using list_ind_by_four;
    intros offset.
  - split; [by intros [? ?] | intros [H | [_ H]]; [done | by destruct H]].
  - split; [by intros [? ?] | by intros [H | [H _]]].
  - split; [by intros [? ?] | by intros [H | [H _]]].
  - split; [by left | eauto].
  - split; [by right | eauto].
  - change (last_group offset total (x :: y :: z :: w :: v :: rest))
      with (last_group (offset + 4) total (v :: rest)).
    rewrite (IH (offset + 4)%nat).
    replace (length (x :: y :: z :: w :: v :: rest)) with (length (v :: rest) + 1 * 4)%nat
      by (simpl; lia).
    rewrite Nat.Div0.mod_add. simpl length. split; intros [H | [H _]]; auto.
    all: right; split; [done | lia].
Qed.

(** X2. [Parse] returns an AST exactly when the number of tokens is 3
    modulo 4, or a multiple of 4 other than 0; on every other input it
    panics. *)
Theorem Parse_returns_iff_token_count (lex : string -> list LexToken) (s : string) :
  ((exists a, matchlang.Parse lex s = Some (Ok a)) <->
   (length (lex s) mod 4 = 3 \/ (length (lex s) mod 4 = 0 /\ length (lex s) <> 0))%nat)
  /\ ((exists e, matchlang.Parse lex s = Some (Panic e)) <->
      (length (lex s) mod 4 = 1 \/ length (lex s) mod 4 = 2 \/ length (lex s) = 0)%nat).
Proof.
  unfold matchlang.Parse. rewrite parse_tokens_last_group.
  pose proof (last_group_returns (lex s) 0 (length (lex s))) as Hret.
  pose proof (Nat.mod_upper_bound (length (lex s)) 4 ltac:(done)) as Hmod.
  split.
  - rewrite <- Hret. split; [intros [a [= ->]] | intros [a ->]]; eauto.
  - destruct (last_group 0 (length (lex s)) (lex s)) as [a|e].
    + split; [by intros [? [=]]|].
      assert (exists a0 : Ast, Ok a = Ok a0) as Hex by eauto.
      apply Hret in Hex. intros [H | [H | H]]; [lia | lia |].
      rewrite H in Hex. simpl in Hex. lia.
    + split; [|eauto]. intros _.
      destruct (decide (length (lex s) mod 4 = 1 \/ length (lex s) mod 4 = 2
                        \/ length (lex s) = 0)%nat) as [|Hno]; [done|].
      assert (exists a0 : Ast, Panic e = Ok a0) as [a0 [=]].
      apply Hret.
      destruct (decide (length (lex s) mod 4 = 3)%nat); [by left|].
      right. split; lia.
Qed.

Lemma last_group_step (x y z w : LexToken) (rest : list LexToken) (offset total : nat) :
  rest <> [] ->
  last_group offset total (x :: y :: z :: w :: rest) = last_group (offset + 4) total rest.
Proof. by destruct rest. Qed.

Lemma last_group_joined_trailing groups final (t : LexToken) (offset total : nat) :
  last_group offset total (joined groups final ++ [t]) = Ok (comparison_of final).
Proof.
  revert offset; induction groups as [|[[[i o] l] sep] groups IH]; intros offset.
  - by destruct final as [[i o] l].
  - cbn [joined triple_tokens app].
    rewrite last_group_step; [apply IH|].
    by destruct (joined groups final).
Qed.

(** X3. A token after the last comparison is ignored: on comparisons joined
    by one token each and followed by one more token, whatever it is,
    [Parse] returns the comparison of the last triple, as it does without
    that token. *)
Theorem Parse_ignores_trailing_token
    (lex : string -> list LexToken) (s : string)
    (groups : list (triple * LexToken)) (final : triple) (t : LexToken)
    (Hlex : lex s = joined groups final ++ [t]) :
  matchlang.Parse lex s = Some (Ok (comparison_of final)).
Proof.
  unfold matchlang.Parse. rewrite parse_tokens_last_group, Hlex. f_equal.
  apply last_group_joined_trailing.
Qed.

Lemma Parse_ignores_trailing_token_witness :
  matchlang.Parse
    (fun _ => [token CodeToken "code"; token EqualsToken "=="; token LiteralToken "200";
               token AndToken "and"])
    "code == 200 and"
  = Some (Ok (Comparison EqualsOperator (Identifier CodeIdentifier) (Literal "200"))).
Proof.
  apply (Parse_ignores_trailing_token (fun _ => _) _ []
           (token CodeToken "code", token EqualsToken "==", token LiteralToken "200")
           (token AndToken "and") eq_refl).
Defined.

(** X4. [Parse] never looks at the type of a token: any three tokens give a
    [Comparison]. Its operator is [EqualsOperator] or [NotEqualsOperator]
    exactly when the second token is an equals or a not-equals token, and
    -1 otherwise; its identifier is [CodeIdentifier] for every first token
    that is neither a size nor a text token; its literal is the value of
    the third token, of whatever type. *)
Theorem Parse_does_not_check_token_types
    (lex : string -> list LexToken) (s : string) (first second third : LexToken)
    (Hlex : lex s = [first; second; third]) :
  exists op id,
    matchlang.Parse lex s = Some (Ok (Comparison op (Identifier id) (Literal (Value third))))
    /\ ((op = EqualsOperator \/ op = NotEqualsOperator) <->
        (Type_ second = EqualsToken \/ Type_ second = NotEqualsToken))
    /\ (Type_ second <> EqualsToken -> Type_ second <> NotEqualsToken -> op = -1)
    /\ (Type_ first <> SizeToken -> Type_ first <> TextToken -> id = CodeIdentifier).
Proof.
  unfold matchlang.Parse. rewrite parse_tokens_last_group, Hlex. cbn [last_group comparison_of].
  eexists _, _. split; [reflexivity|].
  unfold lexTokenToOperator, EqualsOperator, NotEqualsOperator.
  destruct (Type_ second), (Type_ first); repeat split; try done;
    try (intros [H|H]; discriminate H); auto.
Qed.

Lemma Parse_does_not_check_token_types_witness :
  exists op id,
    matchlang.Parse
      (fun _ => [token AndToken "and"; token LiteralToken "x"; token EqualsToken "=="])
      "and x =="
    = Some (Ok (Comparison op (Identifier id) (Literal "==")))
    /\ ((op = EqualsOperator \/ op = NotEqualsOperator) <->
        (LiteralToken = EqualsToken \/ LiteralToken = NotEqualsToken))
    /\ (LiteralToken <> EqualsToken -> LiteralToken <> NotEqualsToken -> op = -1)
    /\ (AndToken <> SizeToken -> AndToken <> TextToken -> id = CodeIdentifier).
Proof.
  apply (Parse_does_not_check_token_types (fun _ => _) "and x =="
           (token AndToken "and") (token LiteralToken "x") (token EqualsToken "==")
           eq_refl).
Defined.

(** ** Range texts and the matchers built from them *)

Section RangeTexts.

Implicit Types (s t : string) (c : ascii) (ranges : list Range) (res : Response).

Lemma pieces_nonempty c s : pieces c s <> [].
Proof.
  destruct s as [|a s]; simpl; [done|].
  destruct (Ascii.eqb c a); [done|]. by destruct (pieces c s).
Qed.

Lemma HasPrefix_char c a s :
  HasPrefix (String a s) (String c EmptyString) = Ascii.eqb c a.
Proof. simpl. by destruct (Ascii.eqb c a). Qed.

(** The loop of [genSplit] at a one-byte separator gives the pieces. *)
Lemma split_loop_pieces c s :
  forall k, (String.length s <= k)%nat ->
            split_loop k s (String c EmptyString) = pieces c s.
Proof.
  induction s as [|a s IH]; intros k Hk.
  - by destruct k.
  - destruct k as [|k]; [simpl in Hk; lia|].
    cbn [split_loop pieces].
    change (find (String a s) (String c EmptyString))
      with (if HasPrefix (String a s) (String c EmptyString) then Some 0%nat
            else option_map S (find s (String c EmptyString))).
    rewrite HasPrefix_char.
    destruct (Ascii.eqb c a).
    + cbn [take drop Nat.add String.length]. rewrite IH; [done | simpl in Hk; lia].
    + pose proof (IH (S k) ltac:(simpl in Hk; lia)) as HS. cbn [split_loop] in HS.
      destruct (find s (String c EmptyString)) as [m|]; cbn [option_map].
      * rewrite <- HS. cbn [take drop Nat.add String.length]. done.
      * by rewrite <- HS.
Qed.

Lemma Split_pieces c s : Split s (String c EmptyString) = pieces c s.
Proof. unfold Split, SplitN; simpl. by apply split_loop_pieces. Qed.

Lemma pieces_app c s t :
  pieces c (s +:+ String c t) = pieces c s ++ pieces c t.
Proof.
  induction s as [|a s IH]; simpl.
  - by rewrite Ascii.eqb_refl.
  - destruct (Ascii.eqb c a); [by rewrite IH|].
    rewrite IH. pose proof (pieces_nonempty c s). by destruct (pieces c s).
Qed.

Lemma parseRanges_loop_acc (toks : list string) ranges ranges' :
  parseRanges_loop toks [] = Ok ranges' ->
  parseRanges_loop toks ranges = Ok (ranges ++ ranges').
Proof.
  revert ranges ranges'.
  assert (forall acc acc' out,
            parseRanges_loop toks acc = Ok out ->
            parseRanges_loop toks (acc' ++ acc) = Ok (acc' ++ out)) as H.
  { induction toks as [|tok toks IH]; intros acc acc' out; simpl.
    - by intros [= ->].
    - destruct (parseRange tok) as [ran|]; simpl; [|done].
      intros Hout. rewrite <- (assoc_L (++)). by apply IH. }
  intros ranges ranges' Hloop.
  specialize (H [] ranges ranges' Hloop). by rewrite (right_id_L [] (++)) in H.
Qed.

Lemma parseRanges_loop_app (toks toks' : list string) ranges out :
  parseRanges_loop toks ranges = Ok out ->
  parseRanges_loop (toks ++ toks') ranges = parseRanges_loop toks' out.
Proof.
  revert ranges; induction toks as [|tok toks IH]; intros ranges; simpl.
  - by intros [= ->].
  - destruct (parseRange tok) as [ran|]; simpl; [apply IH | done].
Qed.

Lemma isValueInRanges_app ranges ranges' v :
  isValueInRanges (ranges ++ ranges') v
  = isValueInRanges ranges v || isValueInRanges ranges' v.
Proof.
  induction ranges as [|ran ranges IH]; simpl; [done|].
  by destruct ((v >=? From ran) && (v <=? To ran)).
Qed.

Lemma scan_filters_forallb res (filters : list Filter) :
  scan_filters res filters true = forallb (fun f => f res) filters.
Proof.
  induction filters as [|f filters IH]; simpl; [done|].
  by destruct (f res).
Qed.

Lemma scan_matchers_existsb res (matchers : list Matcher) :
  scan_matchers res matchers false = existsb (fun m => m res) matchers.
Proof.
  induction matchers as [|m matchers IH]; simpl; [done|].
  by destruct (m res).
Qed.

End RangeTexts.

(** X5. A ranges text made of two texts joined by a comma parses to the
    ranges of the first followed by the ranges of the second, so a value
    is in them exactly when it is in the ranges of one of the two texts:
    the matcher of the joined text is the disjunction of the two matchers,
    and its filter the conjunction of the two filters. *)
Theorem parseRanges_of_joined_texts (s t : string) :
  exists rs rt,
    parseRanges s = Ok rs /\ parseRanges t = Ok rt
    /\ parseRanges (s +:+ "," +:+ t) = Ok (rs ++ rt)
    /\ (forall v, isValueInRanges (rs ++ rt) v
                  = isValueInRanges rs v || isValueInRanges rt v)
    /\ exists m ms mt f fs ft,
         reportable.MatchCodes (s +:+ "," +:+ t) = Ok m
         /\ reportable.MatchCodes s = Ok ms /\ reportable.MatchCodes t = Ok mt
         /\ FilterCodes (s +:+ "," +:+ t) = Ok f
         /\ FilterCodes s = Ok fs /\ FilterCodes t = Ok ft
         /\ forall res, m res = ms res || mt res /\ f res = fs res && ft res.
Proof.
  destruct (parseRanges_returns s) as [rs Hs].
  destruct (parseRanges_returns t) as [rt Ht].
  assert (parseRanges (s +:+ "," +:+ t) = Ok (rs ++ rt)) as Hst.
  { unfold parseRanges in *. change ("," +:+ t) with (String "," t).
    rewrite Split_pieces, pieces_app, <- !Split_pieces.
    rewrite (parseRanges_loop_app _ _ _ _ Hs). by apply parseRanges_loop_acc. }
  exists rs, rt. do 3 (split; [done|]).
  split; [intros v; apply isValueInRanges_app|].
  unfold reportable.MatchCodes, FilterCodes. rewrite Hs, Ht, Hst. simpl.
  eexists _, _, _, _, _, _. do 6 (split; [reflexivity|]).
  intros res. simpl. rewrite isValueInRanges_app. split; [done|].
  apply negb_orb.
Qed.

(** X6. The empty ranges text is one token that is not numeric: it parses
    to the single range {0,0}, so its matchers accept a response exactly
    when the code (the length) is 0, and its filters exactly when it is
    not. *)
Theorem empty_ranges_text_is_zero (res : Response) :
  parseRanges "" = Ok [ {| From := 0; To := 0 |} ]
  /\ exists mc ml fc fl,
       reportable.MatchCodes "" = Ok mc /\ reportable.MatchLengths "" = Ok ml
       /\ FilterCodes "" = Ok fc /\ FilterLengths "" = Ok fl
       /\ (mc res = true <-> Code res = 0) /\ (ml res = true <-> Length res = 0)
       /\ (fc res = true <-> Code res <> 0) /\ (fl res = true <-> Length res <> 0).
Proof.
  split; [reflexivity|].
  eexists _, _, _, _. do 4 (split; [reflexivity|]).
  cbn [isValueInRanges From To].
  assert (forall v, ((if (v >=? 0) && (v <=? 0) then true else false) = true <-> v = 0))
    as Hmatch.
  { intros v. destruct (Z.geb_spec v 0), (Z.leb_spec v 0); simpl; split; (lia || done). }
  assert (forall v, (negb (if (v >=? 0) && (v <=? 0) then true else false) = true
                     <-> v <> 0)) as Hfilter.
  { intros v. destruct (Z.geb_spec v 0), (Z.leb_spec v 0); simpl; split; (lia || done). }
  repeat split; try apply Hmatch; try apply Hfilter.
Qed.

(** X7. Dashes in a token: for a, b, c between 0 and the largest [int], a
    token with a leading dash, "-a", parses to {0,a}; a token with a
    trailing dash, "a-", parses to {a,0}, which has no member unless a is
    0; a token with two dashes, "a-b-c", parses to {a,a}. *)
Theorem parseRange_dashes (a b c : Z)
    (Ha : 0 <= a <= maxInt) (Hb : 0 <= b <= maxInt) (Hc : 0 <= c <= maxInt) :
  parseRange ("-" +:+ Itoa a) = Ok {| From := 0; To := a |}
  /\ parseRange (Itoa a +:+ "-") = Ok {| From := a; To := 0 |}
  /\ (forall v, a <> 0 -> isValueInRanges [ {| From := a; To := 0 |} ] v = false)
  /\ parseRange (Itoa a +:+ "-" +:+ Itoa b +:+ "-" +:+ Itoa c)
     = Ok {| From := a; To := a |}.
Proof.
  pose proof (Itoa_free "-" a (proj1 Ha) eq_refl) as Fa.
  pose proof (Itoa_free "-" b (proj1 Hb) eq_refl) as Fb.
  pose proof (Itoa_free "-" c (proj1 Hc) eq_refl) as Fc.
  rewrite !parseRange_eq.
  split; [|split; [|split]].
  - change ("-" +:+ Itoa a) with ("" +:+ String "-" (Itoa a)).
    rewrite Split_two by done. by rewrite Atoi_Itoa.
  - change (Itoa a +:+ "-") with (Itoa a +:+ String "-" "").
    rewrite Split_two by done. by rewrite Atoi_Itoa.
  - intros v Hne. simpl.
    destruct (Z.geb_spec v a), (Z.leb_spec v 0); simpl; try done. lia.
  - change (Itoa a +:+ "-" +:+ Itoa b +:+ "-" +:+ Itoa c)
      with (Itoa a +:+ String "-" (Itoa b +:+ String "-" (Itoa c))).
    rewrite Split_pieces, pieces_app, <- !Split_pieces.
    rewrite (Split_one (Itoa a)), Split_two by done.
    simpl. by rewrite Atoi_Itoa.
Qed.

Lemma parseRange_dashes_witness :
  parseRange "-404" = Ok {| From := 0; To := 404 |}
  /\ parseRange "404-" = Ok {| From := 404; To := 0 |}
  /\ (forall v, 404 <> 0 -> isValueInRanges [ {| From := 404; To := 0 |} ] v = false)
  /\ parseRange "404-499-599" = Ok {| From := 404; To := 404 |}.
Proof.
  apply (parseRange_dashes 404 499 599
           ltac:(by vm_compute) ltac:(by vm_compute) ltac:(by vm_compute)).
Defined.

(** X8. A matcher and a filter built from the same ranges text leave
    nothing to report: whatever the response, [IsReportable] with the two
    of them answers false, by code and by length. *)
Theorem same_text_matcher_and_filter_report_nothing (s : string) (res : Response) :
  exists mc ml fc fl,
    reportable.MatchCodes s = Ok mc /\ FilterCodes s = Ok fc
    /\ reportable.MatchLengths s = Ok ml /\ FilterLengths s = Ok fl
    /\ IsReportable res [mc] [fc] = false
    /\ IsReportable res [ml] [fl] = false.
Proof.
  unfold reportable.MatchCodes, FilterCodes, reportable.MatchLengths, FilterLengths.
  destruct (parseRanges_returns s) as [ranges ->]. simpl.
  eexists _, _, _, _. do 4 (split; [reflexivity|]).
  unfold IsReportable; simpl.
  split; [by destruct (isValueInRanges ranges (Code res))
         | by destruct (isValueInRanges ranges (Length res))].
Qed.

(** X9. [IsReportable] does not depend on the order of the matchers or of
    the filters; filters compose by conjunction, and with one matcher or
    more the matchers compose by disjunction. *)
Theorem IsReportable_order_and_composition
    (res : Response) (ms ms' : list Matcher) (fs fs' : list Filter)
    (Hms : ms ≡ₚ ms') (Hfs : fs ≡ₚ fs') :
  IsReportable res ms fs = IsReportable res ms' fs'
  /\ (forall fs1 fs2,
        IsReportable res ms (fs1 ++ fs2)
        = IsReportable res ms fs1 && IsReportable res ms fs2)
  /\ (forall ms1 ms2, ms1 <> [] -> ms2 <> [] ->
        IsReportable res (ms1 ++ ms2) fs
        = IsReportable res ms1 fs || IsReportable res ms2 fs).
Proof.
  split; [|split].
  - unfold IsReportable.
    rewrite !scan_filters_forallb, !scan_matchers_existsb.
    rewrite (Permutation_length Hms).
    f_equal; [|f_equal].
    + apply eq_true_iff_eq. rewrite !forallb_forall.
      by setoid_rewrite <- list_elem_of_In; setoid_rewrite Hfs.
    + apply eq_true_iff_eq. rewrite !existsb_exists.
      by setoid_rewrite <- list_elem_of_In; setoid_rewrite Hms.
  - intros fs1 fs2. unfold IsReportable.
    rewrite !scan_filters_forallb, forallb_app.
    generalize (scan_matchers res ms false || (Z.of_nat (length ms) =? 0)).
    intros matched.
    assert (forall a b m : bool, a && b && m = a && m && (b && m)) as Hbool
      by (by intros [] [] []).
    apply Hbool.
  - intros ms1 ms2 H1 H2. unfold IsReportable.
    rewrite !scan_matchers_existsb, existsb_app, length_app.
    destruct ms1; [done|]. destruct ms2; [done|]. simpl length.
    destruct (scan_filters res fs true); simpl; [|done].
    by rewrite !orb_false_r.
Qed.

Lemma IsReportable_order_and_composition_witness :
  let res := {| Code := 200; Length := 5; Raw := EmptyString |} in
  let m1 : Matcher := fun r => isValueInRanges [{| From := 200; To := 299 |}] (Code r) in
  let m2 : Matcher := fun r => isValueInRanges [{| From := 0; To := 3 |}] (Length r) in
  let f1 : Filter := fun r => negb (isValueInRanges [{| From := 404; To := 404 |}] (Code r)) in
  let f2 : Filter := fun r => negb (isValueInRanges [{| From := 7; To := 9 |}] (Length r)) in
  IsReportable res [m1; m2] [f1; f2] = IsReportable res [m2; m1] [f2; f1]
  /\ (forall fs1 fs2,
        IsReportable res [m1; m2] (fs1 ++ fs2)
        = IsReportable res [m1; m2] fs1 && IsReportable res [m1; m2] fs2)
  /\ (forall ms1 ms2, ms1 <> [] -> ms2 <> [] ->
        IsReportable res (ms1 ++ ms2) [f1; f2]
        = IsReportable res ms1 [f1; f2] || IsReportable res ms2 [f1; f2]).
Proof.
  intros res m1 m2 f1 f2.
  apply (IsReportable_order_and_composition res [m1; m2] [m2; m1] [f1; f2] [f2; f1]);
    apply perm_swap.
Defined.

(** X10. [FromArgs] returns for all arguments, with the matcher of the
    codes and, when the text of the lengths is not empty, the matcher of
    the lengths: never an empty list. With its matchers a response is
    reportable exactly when every filter keeps it and its code is in the
    ranges of the codes or, the text of the lengths not being empty, its
    length is in the ranges of the lengths. *)
Theorem FromArgs_matchers (args : cliargs.Args) (res : Response) (fs : list Filter) :
  exists ms codes lens,
    FromArgs args = Ok ms
    /\ parseRanges (cliargs.MatchCodes args) = Ok codes
    /\ parseRanges (cliargs.MatchLengths args) = Ok lens
    /\ ms <> []
    /\ length ms = (if String.eqb (cliargs.MatchLengths args) "" then 1 else 2)%nat
    /\ IsReportable res ms fs
       = forallb (fun f => f res) fs
         && (isValueInRanges codes (Code res)
             || negb (String.eqb (cliargs.MatchLengths args) "")
                && isValueInRanges lens (Length res)).
Proof.
  unfold FromArgs, reportable.MatchCodes, reportable.MatchLengths.
  destruct (parseRanges_returns (cliargs.MatchCodes args)) as [codes Hc].
  destruct (parseRanges_returns (cliargs.MatchLengths args)) as [lens Hl].
  rewrite Hc, Hl. cbn [mbind result_bind app].
  destruct (String.eqb (cliargs.MatchLengths args) ""); cbn [negb];
    eexists _, codes, lens; (split; [reflexivity|]); do 2 (split; [reflexivity|]);
    (split; [done|]); (split; [reflexivity|]);
    unfold IsReportable; rewrite scan_filters_forallb; f_equal; simpl.
  - by destruct (isValueInRanges codes (Code res)).
  - by destruct (isValueInRanges codes (Code res)), (isValueInRanges lens (Length res)).
Qed.

(** ** Chains of mutators *)

(** What a call of a mutator does, for the proofs below. *)
Lemma call_spec (m : Mutator) (r : Request) (h : store) :
  valid h r = true ->
  keeps h (call m r h).2
  /\ read (call m r h).2 r = read h r
  /\ ((exists r', (call m r h).1 = Ok r') <-> accepts m = true)
  /\ (forall r', (call m r h).1 = Ok r' ->
        read (call m r h).2 r' = changed m (read h r)
        /\ exists lh lc,
             Headers r' = Some lh /\ Cookies r' = Some lc /\ lh <> lc
             /\ (lh ∉ dom h) /\ (lc ∉ dom h)
             /\ (lh ∈ dom (call m r h).2) /\ (lc ∈ dom (call m r h).2)).
Proof.
  intros Hvalid.
  destruct (Clone_spec r h Hvalid) as (lh & lc & Hlh & Hlc & Hne & HClone).
  set (h2 := <[lc := contents h (Cookies r)]> (<[lh := contents h (Headers r)]> h)) in *.
  assert (keeps h h2) as Hk2.
  { apply keeps_insert; [apply keeps_insert; [apply keeps_refl | done] | done]. }
  assert (dom h2 = {[lc]} ∪ ({[lh]} ∪ dom h)) as Hdom2
    by (unfold h2; by rewrite !dom_insert_L).
  assert (contents h2 (Some lh) = contents h (Headers r)) as Hch.
  { unfold h2. rewrite contents_insert_ne by congruence. apply contents_insert_eq. }
  assert (contents h2 (Some lc) = contents h (Cookies r)) as Hcc
    by apply contents_insert_eq.
  assert (forall (res : result Request) h',
            keeps h h' ->
            (forall r', res = Ok r' ->
               read h' r' = changed m (read h r)
               /\ exists lh lc,
                    Headers r' = Some lh /\ Cookies r' = Some lc /\ lh <> lc
                    /\ (lh ∉ dom h) /\ (lc ∉ dom h)
                    /\ (lh ∈ dom h') /\ (lc ∈ dom h')) ->
            ((exists r', res = Ok r') <-> accepts m = true) ->
            call m r h = (res, h') ->
            keeps h (call m r h).2
            /\ read (call m r h).2 r = read h r
            /\ ((exists r', (call m r h).1 = Ok r') <-> accepts m = true)
            /\ (forall r', (call m r h).1 = Ok r' ->
                  read (call m r h).2 r' = changed m (read h r)
                  /\ exists lh lc,
                       Headers r' = Some lh /\ Cookies r' = Some lc /\ lh <> lc
                       /\ (lh ∉ dom h) /\ (lc ∉ dom h)
                       /\ (lh ∈ dom (call m r h).2) /\ (lc ∈ dom (call m r h).2)))
    as Hpack.
  { intros res h' Hk Hres Hacc ->. simpl. split; [done|].
    split; [by apply keeps_read|]. by split. }
  destruct m as [path|query|body|key val|key val|val|header];
    unfold call, WithPath, WithQuery, WithBody, WithHeader, WithCookie,
           WithCookieString, WithHeaderString in *.
  - eapply Hpack; [exact Hk2 | | | erewrite bind_Ok; [reflexivity | exact HClone]].
    + intros r' [= <-]. split.
      * read_fields. by rewrite Hch, Hcc.
      * exists lh, lc. repeat split; auto; in_dom.
    + split; [done | eauto].
  - eapply Hpack; [exact Hk2 | | | erewrite bind_Ok; [reflexivity | exact HClone]].
    + intros r' [= <-]. split.
      * read_fields. by rewrite Hch, Hcc.
      * exists lh, lc. repeat split; auto; in_dom.
    + split; [done | eauto].
  - eapply Hpack; [exact Hk2 | | | erewrite bind_Ok; [reflexivity | exact HClone]].
    + intros r' [= <-]. split.
      * read_fields. by rewrite Hch, Hcc.
      * exists lh, lc. repeat split; auto; in_dom.
    + split; [done | eauto].
  - eapply Hpack;
      [ | | | erewrite bind_Ok; [|exact HClone];
              erewrite bind_Ok; [reflexivity | reflexivity] ].
    + by apply keeps_insert.
    + intros r' [= <-]. split.
      * read_fields.
        rewrite contents_insert_eq, contents_insert_ne by congruence.
        by rewrite Hch, Hcc.
      * exists lh, lc. repeat split; auto; in_dom.
    + split; [done | eauto].
  - eapply Hpack;
      [ | | | erewrite bind_Ok; [|exact HClone];
              erewrite bind_Ok; [reflexivity | reflexivity] ].
    + by apply keeps_insert.
    + intros r' [= <-]. split.
      * read_fields.
        rewrite contents_insert_eq, contents_insert_ne by congruence.
        by rewrite Hch, Hcc.
      * exists lh, lc. repeat split; auto; in_dom.
    + split; [done | eauto].
  - set (l3 := fresh (dom h2)).
    assert (l3 ∉ dom h2) as Hl3 by apply is_fresh.
    assert ((l3 ∉ dom h) /\ l3 <> lh /\ l3 <> lc) as (Hl3h & Hl3lh & Hl3lc).
    { rewrite Hdom2, !elem_of_union, !elem_of_singleton in Hl3. tauto. }
    destruct (parseRawCookies_loop_spec (Split val "; ") l3 (<[l3 := ∅]> h2) ∅
                (lookup_insert_eq _ _ _)) as [[m' Hm'] Hloop].
    destruct (parseRawCookies_loop (Split val "; ") (Some l3) (<[l3 := ∅]> h2))
      as [res3 h3] eqn:Hrun.
    simpl in Hm'. rewrite insert_insert_eq in Hm'. subst h3.
    assert (forall B (k : unit -> M B),
              (parseRawCookies (Some l3) val ≫= k) (<[l3 := ∅]> h2)
              = match res3 with
                | Ok u => k u (<[l3 := m']> h2)
                | Panic e => (Panic e, <[l3 := m']> h2)
                end) as Hbind.
    { intros B k. unfold mbind, M_bind, parseRawCookies. rewrite Hrun.
      by destruct res3. }
    set (r3 := set_Cookies
                 {| Method := Method r; RequestUri := RequestUri r; Path := Path r;
                    Query := Query r; ProtocolVersion := ProtocolVersion r;
                    Headers := Some lh; Cookies := Some lc; Body := Body r |}
                 (Some l3)).
    eapply (Hpack (match res3 with Ok _ => Ok r3 | Panic e => Panic e end)
                  (<[l3 := m']> h2));
      [ | | | erewrite bind_Ok; [|exact HClone];
              erewrite bind_Ok; [|reflexivity];
              cbv beta zeta; cbn [set_Cookies Cookies]; fold l3 h2;
              rewrite Hbind; by destruct res3 ].
    + by apply keeps_insert.
    + intros r'. unfold accepts, cookies_well_formed in *.
      destruct (forallb _ (Split val "; ")).
      * injection Hloop as -> Hm. intros [= <-]. subst r3. split.
        -- read_fields.
           rewrite contents_insert_eq, contents_insert_ne by congruence.
           rewrite Hch. f_equal.
           apply (f_equal (fun s : store => s !! l3)) in Hm.
           rewrite !lookup_insert_eq in Hm. by injection Hm as ->.
        -- exists lh, l3. repeat split; auto; in_dom.
      * destruct Hloop as [e He]. simpl in He. by subst res3.
    + unfold accepts, cookies_well_formed in *.
      destruct (forallb _ (Split val "; ")).
      * injection Hloop as -> Hm. split; [done | eauto].
      * destruct Hloop as [e He]. simpl in He. subst res3.
        split; [by intros [? ?] | done].
  - pose proof (parseHeader_spec header) as Hparse.
    destruct (header_well_formed header) eqn:Hwf.
    + destruct (header_entry header) as [k v] eqn:Hentry.
      eapply Hpack;
        [ | | | erewrite bind_Ok; [|unfold lift; by rewrite Hparse];
                cbv beta iota;
                erewrite bind_Ok; [|exact HClone];
                erewrite bind_Ok; [reflexivity | reflexivity] ].
      * by apply keeps_insert.
      * intros r' [= <-]. split.
        -- read_fields. rewrite Hentry. cbn [fst snd].
           rewrite contents_insert_eq, contents_insert_ne by congruence.
           by rewrite Hch, Hcc.
        -- exists lh, lc. repeat split; auto; in_dom.
      * unfold accepts. rewrite Hwf. split; [done | eauto].
    + destruct Hparse as [e He].
      eapply Hpack;
        [ | | | erewrite bind_Panic; [reflexivity | unfold lift; by rewrite He] ].
      * apply keeps_refl.
      * done.
      * unfold accepts. rewrite Hwf. split; [by intros [? ?] | done].
Qed.

Section ChainFacts.

Implicit Types (h : store) (r : Request) (m : Mutator) (ms : list Mutator).

Lemma keeps_trans h h1 h2 : keeps h h1 -> keeps h1 h2 -> keeps h h2.
Proof.
  intros H1 H2 l Hl. rewrite <- (H1 l Hl). apply H2.
  apply elem_of_dom. rewrite (H1 l Hl). by apply elem_of_dom.
Qed.

Lemma call_valid m r h r' :
  valid h r = true -> (call m r h).1 = Ok r' -> valid (call m r h).2 r' = true.
Proof.
  intros Hvalid Hcall.
  destruct (call_spec m r h Hvalid) as (_ & _ & _ & Hres).
  destruct (Hres r' Hcall) as (_ & lh & lc & Hh & Hc & _ & _ & _ & Hinh & Hinc).
  unfold valid, valid_ref. rewrite Hh, Hc.
  by rewrite !bool_decide_eq_true_2.
Qed.

Lemma call_all_spec ms :
  forall r h,
    valid h r = true ->
    keeps h (call_all ms r h).2
    /\ ((exists r', (call_all ms r h).1 = Ok r') <-> forallb accepts ms = true)
    /\ (forall r', (call_all ms r h).1 = Ok r' ->
          valid (call_all ms r h).2 r' = true
          /\ read (call_all ms r h).2 r' = foldl (fun f m => changed m f) (read h r) ms).
Proof.
  induction ms as [|m ms IH]; intros r h Hvalid.
  - cbn. split; [apply keeps_refl|]. split; [split; eauto|].
    by intros r' [= <-].
  - destruct (call_spec m r h Hvalid) as (Hk & _ & Hacc & Hres).
    pose proof (call_valid m r h) as Hv.
    cbn [call_all forallb foldl]. unfold mbind, M_bind.
    destruct (call m r h) as [[r1|e] h1] eqn:Hcall; cbn [fst snd] in *.
    + specialize (Hv r1 Hvalid eq_refl).
      destruct (Hres r1 eq_refl) as [Hread _].
      destruct (IH r1 h1 Hv) as (Hk1 & Hacc1 & Hres1).
      split; [by eapply keeps_trans|].
      assert (accepts m = true) as -> by (apply Hacc; eauto).
      split; [done|]. intros r' Hr'. rewrite <- Hread. by apply Hres1.
    + split; [done|]. split; [|done].
      split; [by intros [? ?]|].
      intros [Hm _]%andb_prop. apply Hacc in Hm as [? ?]. done.
Qed.

End ChainFacts.

(** X11. A chain of mutator calls, each on the request that the one before
    it returned, on a template whose maps are in the store: every map that
    the store held is as before, so the template reads as before, whether
    the chain returns or panics on the way. The chain returns exactly when
    every argument is accepted, and the request it returns reads as the
    template with the requested changes made in the order of the calls. *)
Theorem mutator_chain_keeps_template
    (ms : list Mutator) (r : Request) (h : store) (Hvalid : valid h r = true) :
  keeps h (call_all ms r h).2
  /\ read (call_all ms r h).2 r = read h r
  /\ ((exists r', (call_all ms r h).1 = Ok r') <-> forallb accepts ms = true)
  /\ (forall r', (call_all ms r h).1 = Ok r' ->
        valid (call_all ms r h).2 r' = true
        /\ read (call_all ms r h).2 r'
           = foldl (fun f m => changed m f) (read h r) ms).
Proof.
  destruct (call_all_spec ms r h Hvalid) as (Hk & Hacc & Hres).
  split; [done|]. split; [by apply keeps_read|]. by split.
Qed.

Lemma mutator_chain_keeps_template_witness :
  let h : store := {[ 1%positive := {[ "Host" := "h" ]}; 2%positive := ∅ ]} in
  let r := {| Method := "GET"; RequestUri := "/a"; Path := "/a"; Query := "";
              ProtocolVersion := "HTTP/1.1"; Headers := Some 1%positive;
              Cookies := Some 2%positive; Body := "" |} in
  let ms := [CallWithPath "/b"; CallWithHeader "X" "1"; CallWithCookieString "a=1"] in
  keeps h (call_all ms r h).2
  /\ read (call_all ms r h).2 r = read h r
  /\ ((exists r', (call_all ms r h).1 = Ok r') <-> forallb accepts ms = true)
  /\ (forall r', (call_all ms r h).1 = Ok r' ->
        valid (call_all ms r h).2 r' = true
        /\ read (call_all ms r h).2 r'
           = foldl (fun f m => changed m f) (read h r) ms).
Proof.
  apply (mutator_chain_keeps_template
           [CallWithPath "/b"; CallWithHeader "X" "1"; CallWithCookieString "a=1"]
           {| Method := "GET"; RequestUri := "/a"; Path := "/a"; Query := "";
              ProtocolVersion := "HTTP/1.1"; Headers := Some 1%positive;
              Cookies := Some 2%positive; Body := "" |}
           {[ 1%positive := {[ "Host" := "h" ]}; 2%positive := ∅ ]}).
  vm_compute. reflexivity.
Defined.

(** ** Parsing, again *)

Section ParseValid.

Implicit Types (h : store) (raw : string).

(** The maps of the request that [Parse] returns are maps of the store it
    leaves. *)
Lemma Parse_valid_spec raw h :
  if parses raw
  then exists r h', http.Parse raw h = (Ok r, h') /\ valid h' r = true
  else exists e h', http.Parse raw h = (Panic e, h').
Proof.
  unfold parses, http.Parse.
  erewrite bind_Ok;
    [|unfold lift; rewrite index_zero; [reflexivity | apply Split_nonempty]].
  pose proof (parseRequestLine_spec (part 0 (Split raw crlf))) as Hline.
  destruct (3 <=? length (Split (part 0 (Split raw crlf)) " "))%nat; cbn [andb];
    [|destruct Hline as [e He];
      erewrite bind_Panic; [eauto | unfold lift; by rewrite He]].
  erewrite bind_Ok; [|unfold lift; by rewrite Hline]. cbv beta iota.
  destruct (parseRequestUri (part 1 (Split (part 0 (Split raw crlf)) " ")))
    as [path query] eqn:Huri.
  pose proof (parseHeaders_spec raw h) as Hheaders.
  destruct (forallb header_well_formed (header_lines raw)); cbn [andb];
    [|destruct Hheaders as (e & h' & He); erewrite bind_Panic; [eauto | exact He]].
  set (lh := fresh (dom h)) in *.
  set (h1 := <[lh := header_map raw]> h) in *.
  set (lc := fresh (dom h1)).
  assert (lh ∉ dom h) as Hlh by apply is_fresh.
  assert (lc ∉ dom h1) as Hlc1 by apply is_fresh.
  assert ((lc ∉ dom h) /\ lh <> lc) as [Hlc Hne].
  { unfold h1 in Hlc1. rewrite dom_insert_L, elem_of_union, elem_of_singleton in Hlc1.
    split; [tauto | intros Heq; apply Hlc1; by left]. }
  set (h2 := <[lc := ∅]> h1).
  assert (contents h2 (Some lh) = header_map raw) as Hch2.
  { unfold h2, h1. rewrite contents_insert_ne by congruence. apply contents_insert_eq. }
  erewrite bind_Ok; [|exact Hheaders]. cbv beta.
  erewrite bind_Ok; [|reflexivity]. cbv beta. fold lc h2.
  erewrite bind_Ok; [|reflexivity]. cbv beta. rewrite Hch2.
  pose proof (extractBody_spec raw) as Hbody.
  destruct (header_map raw !! "Cookie") as [val|] eqn:Hcookie.
  - set (h3 := <[lh := delete "Cookie" (header_map raw)]> h2).
    assert (h3 !! lc = Some ∅) as Hlc3.
    { unfold h3, h2. rewrite lookup_insert_ne by done. apply lookup_insert_eq. }
    destruct (parseRawCookies_loop_spec (Split val "; ") lc h3 ∅ Hlc3) as [_ Hloop].
    unfold cookies_well_formed.
    assert ((map_delete (Some lh) "Cookie";; parseRawCookies (Some lc) val) h2
            = parseRawCookies_loop (Split val "; ") (Some lc) h3) as Hstep.
    { erewrite bind_Ok; [|reflexivity]. cbv beta. by rewrite Hch2. }
    destruct (forallb _ (Split val "; ")); cbn [andb].
    + rewrite Hloop in Hstep. fold (entries_map (map cookie_entry (Split val "; "))) in Hstep.
      fold (cookie_map val) in Hstep.
      destruct (Index raw twoRns + len twoRns <=? len raw).
      * erewrite bind_Ok; [|exact Hstep].
        erewrite bind_Ok; [|unfold lift; by rewrite Hbody].
        eexists _, _. split; [reflexivity|].
        unfold valid, valid_ref; cbn [Headers Cookies].
        rewrite !bool_decide_eq_true_2; [done | in_dom..].
      * destruct Hbody as [e He].
        erewrite bind_Ok; [|exact Hstep].
        erewrite bind_Panic; [eauto | unfold lift; by rewrite He].
    + destruct Hloop as [e He].
      destruct (parseRawCookies_loop (Split val "; ") (Some lc) h3) as [res h4] eqn:Hrun.
      simpl in He. subst res.
      erewrite bind_Panic; [eauto | exact Hstep].
  - cbn [andb].
    destruct (Index raw twoRns + len twoRns <=? len raw).
    + erewrite bind_Ok; [|reflexivity].
      erewrite bind_Ok; [|unfold lift; by rewrite Hbody].
      eexists _, _. split; [reflexivity|].
      unfold valid, valid_ref; cbn [Headers Cookies].
      rewrite !bool_decide_eq_true_2; [done | in_dom..].
    + destruct Hbody as [e He].
      erewrite bind_Ok; [|reflexivity].
      erewrite bind_Panic; [eauto | unfold lift; by rewrite He].
Qed.

End ParseValid.

(** X12. [Parse] returns exactly on the raw requests with three words or
    more on the first line, a colon in every header line up to the first
    empty line, an "=" in every cookie of the [Cookie] header, and a body
    index within the request; on every other raw request it panics. The
    request it returns reads as the specification's reading of the raw
    request; its two maps are distinct new maps of the store, and the maps
    that the store held are as before. *)
Theorem Parse_returns_iff_parses (raw : string) (h : store) :
  ((exists r h', http.Parse raw h = (Ok r, h')) <-> parses raw = true)
  /\ ((exists e h', http.Parse raw h = (Panic e, h')) <-> parses raw = false)
  /\ (forall r h',
        http.Parse raw h = (Ok r, h') ->
        read h' r = parsed raw /\ keeps h h' /\ valid h' r = true
        /\ exists lh lc,
             Headers r = Some lh /\ Cookies r = Some lc /\ lh <> lc
             /\ (lh ∉ dom h) /\ (lc ∉ dom h)).
Proof.
  pose proof (Parse_spec raw h) as Hspec.
  pose proof (Parse_valid_spec raw h) as Hvalid.
  destruct (parses raw).
  - destruct Hspec as (r & h' & lh & lc & HParse & Hread & Hkeeps & Hfresh).
    destruct Hvalid as (r1 & h1 & HParse1 & Hv).
    rewrite HParse in HParse1. injection HParse1 as <- <-.
    split; [split; eauto|].
    split; [split; [|done]; intros (e & h1 & H1); by rewrite HParse in H1|].
    intros r1 h1. rewrite HParse. intros [= <- <-]. eauto 10.
  - destruct Hspec as (e & h' & HParse).
    split; [split; [|done]; intros (r1 & h1 & H1); by rewrite HParse in H1|].
    split; [split; eauto|].
    intros r1 h1 H1. by rewrite HParse in H1.
Qed.



(** ** The request URI under [WithPath] and [WithQuery] *)

Section UriMutators.

Implicit Types (h : store) (r : Request) (s old new : string).

Lemma uri_consistent_prefix r :
  uri_consistent r = true -> exists rest, RequestUri r = Path r +:+ rest.
Proof.
  unfold uri_consistent. destruct (Query r) as [|c q]; intros H%String.eqb_eq.
  - exists EmptyString. by rewrite str_app_nil.
  - eauto.
Qed.

Lemma Replace_empty_old s new :
  new <> EmptyString -> Replace s EmptyString new 1 = new +:+ s.
Proof.
  intros Hne. unfold Replace.
  destruct (String.eqb_spec EmptyString new) as [<-|_]; [done|].
  cbn [orb Z.eqb Z.ltb Z.compare]. change (Z.to_nat 1) with 1%nat.
  cbn [Nat.min replace_empty]. by destruct s.
Qed.

Lemma Replace_first s old new (j : nat) :
  find s old = Some j -> old <> EmptyString ->
  Replace s old new 1 = take j s +:+ new +:+ drop (j + String.length old) s.
Proof.
  intros Hfind Hne. unfold Replace.
  destruct (String.eqb_spec old new) as [<-|_].
  - cbn [orb]. by apply find_decompose.
  - cbn [orb Z.eqb Z.ltb Z.compare]. destruct old as [|a old]; [done|].
    change (Z.to_nat 1) with 1%nat. cbn [replace_loop]. by rewrite Hfind.
Qed.

Lemma str_drop_all s : drop (String.length s) s = EmptyString.
Proof. by induction s. Qed.

Lemma WithPath_returns r h path :
  valid h r = true ->
  exists r' h',
    WithPath r path h = (Ok r', h')
    /\ valid h' r' = true /\ keeps h h'
    /\ read h' r' = changed (CallWithPath path) (read h r).
Proof.
  intros Hvalid.
  destruct (call_spec (CallWithPath path) r h Hvalid) as (Hk & _ & Hacc & Hres).
  pose proof (call_valid (CallWithPath path) r h) as Hv.
  cbn [call] in *.
  destruct (WithPath r path h) as [[r'|e] h'] eqn:Hcall; cbn [fst snd] in *.
  - exists r', h'. split; [done|]. split; [by apply Hv|]. split; [done|].
    by apply Hres.
  - destruct (proj2 Hacc eq_refl) as [? [=]].
Qed.

Lemma WithQuery_returns r h query :
  valid h r = true ->
  exists r' h',
    WithQuery r query h = (Ok r', h')
    /\ valid h' r' = true /\ keeps h h'
    /\ read h' r' = changed (CallWithQuery query) (read h r).
Proof.
  intros Hvalid.
  destruct (call_spec (CallWithQuery query) r h Hvalid) as (Hk & _ & Hacc & Hres).
  pose proof (call_valid (CallWithQuery query) r h) as Hv.
  cbn [call] in *.
  destruct (WithQuery r query h) as [[r'|e] h'] eqn:Hcall; cbn [fst snd] in *.
  - exists r', h'. split; [done|]. split; [by apply Hv|]. split; [done|].
    by apply Hres.
  - destruct (proj2 Hacc eq_refl) as [? [=]].
Qed.

End UriMutators.

(** X14. On a request whose request URI is consistent with its path and
    query, [WithPath] returns a request with the new path and a consistent
    request URI, and [WithPath] on that request with the old path returns
    a request that reads as the original: the change of path is undone. *)
Theorem WithPath_keeps_consistency_and_is_undone
    (r : Request) (h : store) (path : string)
    (Hvalid : valid h r = true) (Hcons : uri_consistent r = true) :
  exists r1 h1 r2 h2,
    WithPath r path h = (Ok r1, h1)
    /\ Path r1 = path /\ Query r1 = Query r
    /\ uri_consistent r1 = true
    /\ WithPath r1 (Path r) h1 = (Ok r2, h2)
    /\ read h2 r2 = read h r.
Proof.
  destruct (WithPath_returns r h path Hvalid) as (r1 & h1 & H1 & Hv1 & Hk1 & Hread1).
  destruct (WithPath_returns r1 h1 (Path r) Hv1) as (r2 & h2 & H2 & Hv2 & Hk2 & Hread2).
  exists r1, h1, r2, h2. split; [done|].
  pose proof (f_equal fPath Hread1) as HP. pose proof (f_equal fQuery Hread1) as HQ.
  cbn in HP, HQ. do 2 (split; [done|]).
  split; [exact (WithPath_keeps_uri_consistent r h path r1 h1 Hvalid Hcons H1)|].
  split; [done|].
  rewrite Hread2, Hread1. unfold changed, read.
  cbn [fMethod fRequestUri fPath fQuery fProtocolVersion fHeaders fCookies fBody].
  f_equal.
  destruct (uri_consistent_prefix r Hcons) as [rest ->].
  by rewrite !Replace_prefix.
Qed.

Lemma WithPath_keeps_consistency_and_is_undone_witness :
  let h : store := {[ 1%positive := {[ "Host" := "h" ]}; 2%positive := ∅ ]} in
  let r := {| Method := "GET"; RequestUri := "/a?x=1"; Path := "/a"; Query := "x=1";
              ProtocolVersion := "HTTP/1.1"; Headers := Some 1%positive;
              Cookies := Some 2%positive; Body := "" |} in
  exists r1 h1 r2 h2,
    WithPath r "/b" h = (Ok r1, h1)
    /\ Path r1 = "/b" /\ Query r1 = Query r
    /\ uri_consistent r1 = true
    /\ WithPath r1 (Path r) h1 = (Ok r2, h2)
    /\ read h2 r2 = read h r.
Proof.
  apply (WithPath_keeps_consistency_and_is_undone
           {| Method := "GET"; RequestUri := "/a?x=1"; Path := "/a"; Query := "x=1";
              ProtocolVersion := "HTTP/1.1"; Headers := Some 1%positive;
              Cookies := Some 2%positive; Body := "" |}
           {[ 1%positive := {[ "Host" := "h" ]}; 2%positive := ∅ ]} "/b");
    vm_compute; reflexivity.
Defined.

(** X15. [WithQuery] on a consistent request, with a new query that is not
    empty. When the request has no query, the new query is put in front of
    the request URI, which is never consistent with the path and the new
    query. When the request has a query whose first occurrence in the
    request URI is the query itself, the request URI becomes the path, "?"
    and the new query, which is consistent. *)
Theorem WithQuery_request_uri
    (r : Request) (h : store) (query : string)
    (Hvalid : valid h r = true) (Hcons : uri_consistent r = true)
    (Hquery : query <> EmptyString) :
  exists r' h',
    WithQuery r query h = (Ok r', h')
    /\ Path r' = Path r /\ Query r' = query
    /\ (Query r = EmptyString ->
          RequestUri r' = query +:+ Path r /\ uri_consistent r' = false)
    /\ (Query r <> EmptyString ->
          Index (RequestUri r) (Query r) = len (Path r) + 1 ->
          RequestUri r' = Path r +:+ "?" +:+ query /\ uri_consistent r' = true).
Proof.
  destruct (WithQuery_returns r h query Hvalid) as (r' & h' & H1 & _ & _ & Hread).
  exists r', h'. split; [done|].
  pose proof (f_equal fPath Hread) as HP. pose proof (f_equal fQuery Hread) as HQ.
  pose proof (f_equal fRequestUri Hread) as HU.
  cbn in HP, HQ, HU. do 2 (split; [done|]).
  unfold uri_consistent in *. rewrite HU, HP, HQ.
  destruct query as [|c query]; [done|].
  split.
  - intros Hq. rewrite Hq in *. apply String.eqb_eq in Hcons. rewrite Hcons.
    rewrite Replace_empty_old by done. split; [done|].
    apply String.eqb_neq. intros Heq. apply (f_equal String.length) in Heq.
    rewrite !str_length_app in Heq. simpl in Heq. lia.
  - intros Hq Hidx. destruct (Query r) as [|d q] eqn:Hqr; [done|].
    apply String.eqb_eq in Hcons. unfold Index in Hidx.
    destruct (find (RequestUri r) (String d q)) as [j|] eqn:Hfind; [|unfold len in Hidx; lia].
    assert (j = String.length (Path r +:+ "?")) as ->.
    { rewrite str_length_app. unfold len in Hidx. simpl. lia. }
    rewrite (Replace_first _ _ _ _ Hfind) by done.
    rewrite Hcons.
    replace (Path r +:+ "?" +:+ String d q) with ((Path r +:+ "?") +:+ String d q)
      by apply str_app_assoc.
    rewrite str_take_app, str_drop_plus, str_drop_app, str_drop_all.
    rewrite str_app_assoc. simpl. rewrite str_app_nil.
    split; [done | apply String.eqb_refl].
Qed.

Lemma WithQuery_request_uri_witness :
  let h : store := {[ 1%positive := {[ "Host" := "h" ]}; 2%positive := ∅ ]} in
  let r := {| Method := "GET"; RequestUri := "/a?x=1"; Path := "/a"; Query := "x=1";
              ProtocolVersion := "HTTP/1.1"; Headers := Some 1%positive;
              Cookies := Some 2%positive; Body := "" |} in
  exists r' h',
    WithQuery r "y=2" h = (Ok r', h')
    /\ Path r' = Path r /\ Query r' = "y=2"
    /\ (Query r = EmptyString ->
          RequestUri r' = "y=2" +:+ Path r /\ uri_consistent r' = false)
    /\ (Query r <> EmptyString ->
          Index (RequestUri r) (Query r) = len (Path r) + 1 ->
          RequestUri r' = Path r +:+ "?" +:+ "y=2" /\ uri_consistent r' = true).
Proof.
  apply (WithQuery_request_uri
           {| Method := "GET"; RequestUri := "/a?x=1"; Path := "/a"; Query := "x=1";
              ProtocolVersion := "HTTP/1.1"; Headers := Some 1%positive;
              Cookies := Some 2%positive; Body := "" |}
           {[ 1%positive := {[ "Host" := "h" ]}; 2%positive := ∅ ]} "y=2");
    [vm_compute; reflexivity | vm_compute; reflexivity | discriminate].
Defined.

(** ** Headers given as text, and the encoding of the body *)

Section HeaderFacts.

Implicit Types (h : store) (r : Request) (s : string).

Lemma SplitN_two_colon s :
  SplitN s ":" 2
  = match find s ":" with
    | Some j => [take j s; drop (j + 1) s]
    | None => [s]
    end.
Proof.
  unfold SplitN. cbn [Z.eqb Z.ltb Z.compare Z.sub Z.add Z.opp Z.pos_sub Z.succ_double
                        Z.pred_double Z.double Pos.pred_double].
  change (Z.to_nat (2 - 1)) with 1%nat.
  destruct s as [|c s]; [done|].
  cbn [String.length Nat.min split_loop].
  by destruct (find (String c s) ":").
Qed.

Lemma call_returns m r h :
  valid h r = true -> accepts m = true ->
  exists r' h',
    call m r h = (Ok r', h')
    /\ valid h' r' = true /\ keeps h h'
    /\ read h' r' = changed m (read h r)
    /\ read h' r = read h r.
Proof.
  intros Hvalid Hm.
  destruct (call_spec m r h Hvalid) as (Hk & Hr & Hacc & Hres).
  pose proof (call_valid m r h) as Hv.
  destruct (call m r h) as [[r'|e] h'] eqn:Hcall; cbn [fst snd] in *.
  - exists r', h'. split; [done|]. split; [by apply Hv|]. split; [done|].
    split; [by apply Hres | done].
  - destruct (proj2 Hacc Hm) as [? [=]].
Qed.

End HeaderFacts.

(** X16. [WithHeaderString] cuts its text at the first colon: it is
    [WithHeader] with the text before the colon as the name and the
    trimmed text after it as the value. On a text without a colon it
    panics, before the request is cloned: the store is left as it was. *)
Theorem WithHeaderString_cuts_at_first_colon
    (r : Request) (header : string) (h : store) :
  WithHeaderString r header h
  = match find header ":" with
    | Some j => WithHeader r (take j header) (TrimSpace (drop (j + 1) header)) h
    | None => (Panic (IndexOutOfRange 1 1), h)
    end.
Proof.
  unfold WithHeaderString, WithHeader, parseHeader.
  rewrite SplitN_two_colon.
  by destruct (find header ":").
Qed.

(** X17. The three questions about the encoding of the body return on every
    request, read the store only, and at most one of them answers yes; on
    a request without a [Content-Type] header (or with [nil] headers) they
    all answer no. *)
Theorem body_encodings_exclude_each_other (r : Request) (h : store) :
  exists json form multipart : bool,
    HasJsonBody r h = (Ok json, h)
    /\ HasFormUrlEncodedBody r h = (Ok form, h)
    /\ HasMultipartFormBody r h = (Ok multipart, h)
    /\ json && form = false /\ json && multipart = false
    /\ form && multipart = false
    /\ (contents h (Headers r) !! "Content-Type" = None ->
          json = false /\ form = false /\ multipart = false).
Proof.
  cbv beta iota delta [HasJsonBody HasFormUrlEncodedBody HasMultipartFormBody
                          map_get mbind M_bind mret M_ret].
  destruct (contents h (Headers r) !! "Content-Type") as [ct|].
  - eexists _, _, _. do 3 (split; [reflexivity|]).
    split; [|split; [|split; [|done]]].
    + destruct (String.eqb_spec ct "application/json") as [->|]; done.
    + destruct (String.eqb_spec ct "application/json") as [->|]; done.
    + destruct (String.eqb_spec ct "application/x-www-form-urlencoded") as [->|]; done.
  - by exists false, false, false.
Qed.

(** X18. After [WithHeader] with the name [Content-Type], the value given
    decides the three questions on the request returned, while on the
    request it was called on they are answered as before. *)
Theorem WithHeader_content_type_decides_encoding
    (r : Request) (h : store) (val : string) (Hvalid : valid h r = true) :
  exists r' h',
    WithHeader r "Content-Type" val h = (Ok r', h')
    /\ HasJsonBody r' h' = (Ok (String.eqb val "application/json"), h')
    /\ HasFormUrlEncodedBody r' h'
       = (Ok (String.eqb val "application/x-www-form-urlencoded"), h')
    /\ HasMultipartFormBody r' h' = (Ok (HasPrefix val "multipart/form-data"), h')
    /\ (HasJsonBody r h').1 = (HasJsonBody r h).1
    /\ (HasFormUrlEncodedBody r h').1 = (HasFormUrlEncodedBody r h).1
    /\ (HasMultipartFormBody r h').1 = (HasMultipartFormBody r h).1.
Proof.
  destruct (call_returns (CallWithHeader "Content-Type" val) r h Hvalid eq_refl)
    as (r' & h' & Hcall & _ & _ & Hnew & Hold).
  exists r', h'. split; [exact Hcall|].
  apply (f_equal fHeaders) in Hnew, Hold. cbn in Hnew, Hold.
  cbv beta iota delta [HasJsonBody HasFormUrlEncodedBody HasMultipartFormBody
                          map_get mbind M_bind mret M_ret fst].
  rewrite Hnew, Hold, lookup_insert_eq. done.
Qed.

Lemma WithHeader_content_type_decides_encoding_witness :
  let h : store := {[ 1%positive := {[ "Content-Type" := "text/plain" ]}; 2%positive := ∅ ]} in
  let r := {| Method := "POST"; RequestUri := "/a"; Path := "/a"; Query := EmptyString;
              ProtocolVersion := "HTTP/1.1"; Headers := Some 1%positive;
              Cookies := Some 2%positive; Body := "{}" |} in
  exists r' h',
    WithHeader r "Content-Type" "application/json" h = (Ok r', h')
    /\ HasJsonBody r' h' = (Ok true, h')
    /\ HasFormUrlEncodedBody r' h' = (Ok false, h')
    /\ HasMultipartFormBody r' h' = (Ok false, h')
    /\ (HasJsonBody r h').1 = (HasJsonBody r h).1
    /\ (HasFormUrlEncodedBody r h').1 = (HasFormUrlEncodedBody r h).1
    /\ (HasMultipartFormBody r h').1 = (HasMultipartFormBody r h).1.
Proof.
  apply (WithHeader_content_type_decides_encoding
           {| Method := "POST"; RequestUri := "/a"; Path := "/a"; Query := EmptyString;
              ProtocolVersion := "HTTP/1.1"; Headers := Some 1%positive;
              Cookies := Some 2%positive; Body := "{}" |}
           {[ 1%positive := {[ "Content-Type" := "text/plain" ]}; 2%positive := ∅ ]}
           "application/json").
  vm_compute; reflexivity.
Defined.

(** ** What [Parse] keeps of cookies, headers and body *)

Section ParsedMaps.

Implicit Types (h : store) (r : Request) (s : string) (c : ascii).

Lemma find_char_spec c s :
  match find s (String c EmptyString) with
  | Some j => free_of c (take j s) = true /\ (j < String.length s)%nat
  | None => free_of c s = true
  end.
Proof.
  induction s as [|a s IH]; [done|].
  cbn [find HasPrefix free_of].
  destruct (Ascii.eqb c a) eqn:Hca.
  - simpl. split; [done | lia].
  - destruct (find s (String c EmptyString)) as [j|]; simpl.
    + rewrite Hca. destruct IH as [-> ?]. split; [done | lia].
    + by rewrite ?Hca, ?IH.
Qed.

Lemma str_length_drop n s : String.length (drop n s) = (String.length s - n)%nat.
Proof. revert s; induction n as [|n IH]; intros [|a s]; simpl; auto. Qed.

Lemma replace_loop_free c new k :
  free_of c new = true ->
  forall s, (String.length s <= k)%nat ->
    free_of c (replace_loop k s (String c EmptyString) new) = true.
Proof.
  intros Hnew. induction k as [|k IH]; intros s Hlen.
  - by destruct s; [|simpl in Hlen; lia].
  - cbn [replace_loop]. pose proof (find_char_spec c s) as Hfind.
    destruct (find s (String c EmptyString)) as [j|]; [|done].
    destruct Hfind as [Htake Hj].
    rewrite !free_of_app, Htake, Hnew, IH; [done|].
    rewrite str_length_drop. simpl. lia.
Qed.

(** The escaping of [parseRawCookies] leaves no double quote. *)
Lemma escaped_free s : free_of (ascii_of_nat 34) (Replace s dquote "%22" (-1)) = true.
Proof.
  unfold Replace, dquote. cbn [String.eqb Ascii.eqb orb Z.eqb Z.ltb Z.compare].
  change (String.eqb (String (ascii_of_nat 34) "") "%22") with false.
  cbn [orb]. by apply replace_loop_free.
Qed.

Lemma entries_map_values (P : string -> Prop) (es : list (string * string)) :
  Forall (fun e => P e.2) es ->
  forall k v, entries_map es !! k = Some v -> P v.
Proof.
  intros Hes k v. unfold entries_map.
  rewrite foldl_insert_entries, (right_id_L ∅ (∪)).
  intros Hin%elem_of_list_to_map_2. rewrite elem_of_reverse in Hin.
  rewrite Forall_forall in Hes. by apply (Hes (k, v)).
Qed.

Lemma cookie_map_values val k v :
  cookie_map val !! k = Some v -> free_of (ascii_of_nat 34) v = true.
Proof.
  apply (entries_map_values (fun v => free_of (ascii_of_nat 34) v = true)).
  apply Forall_forall. intros e (c & -> & _)%list_elem_of_fmap.
  apply escaped_free.
Qed.

Lemma foldl_insert_other (es : list (string * string)) (m : gmap string string) k :
  Forall (fun e => e.1 <> k) es ->
  foldl (fun m e => <[e.1 := e.2]> m) m es !! k = m !! k.
Proof.
  revert m; induction es as [|e es IH]; intros m Hes; [done|].
  apply Forall_cons in Hes as [He Hes]. cbn [foldl].
  by rewrite (IH _ Hes), lookup_insert_ne.
Qed.

Lemma entries_map_last (before after : list (string * string)) e :
  Forall (fun e' => e'.1 <> e.1) after ->
  entries_map (before ++ e :: after) !! e.1 = Some e.2.
Proof.
  intros Hafter. unfold entries_map. rewrite foldl_app. cbn [foldl].
  by rewrite (foldl_insert_other _ _ _ Hafter), lookup_insert_eq.
Qed.

Lemma entries_map_none (es : list (string * string)) k :
  Forall (fun e => e.1 <> k) es -> entries_map es !! k = None.
Proof. intros Hes. unfold entries_map. by rewrite (foldl_insert_other _ _ _ Hes). Qed.

Lemma Parse_reads raw h r h' :
  http.Parse raw h = (Ok r, h') -> read h' r = parsed raw.
Proof.
  intros HParse. pose proof (Parse_spec raw h) as Hspec.
  destruct (parses raw).
  - destruct Hspec as (r1 & h1 & _ & _ & HParse1 & Hread & _).
    rewrite HParse in HParse1. by injection HParse1 as <- <-.
  - destruct Hspec as (e & h1 & HParse1). by rewrite HParse in HParse1.
Qed.

End ParsedMaps.

Lemma Parse_valid raw h r h' :
  http.Parse raw h = (Ok r, h') -> valid h' r = true.
Proof.
  intros HParse. pose proof (Parse_valid_spec raw h) as Hspec.
  destruct (parses raw).
  - destruct Hspec as (r1 & h1 & HParse1 & Hv).
    rewrite HParse in HParse1. by injection HParse1 as <- <-.
  - destruct Hspec as (e & h1 & HParse1). by rewrite HParse in HParse1.
Qed.

(** X19. No cookie value of a parsed request holds a double quote, and
    none does after [WithCookieString]: both escape it. [WithCookie] stores
    the value as it is given, double quotes included. *)
Theorem cookie_values_are_escaped_but_for_WithCookie
    (raw : string) (h : store) (r : Request) (h' : store)
    (HParse : http.Parse raw h = (Ok r, h')) :
  (forall k v,
      contents h' (Cookies r) !! k = Some v -> free_of (ascii_of_nat 34) v = true)
  /\ (forall val r1 h1,
        WithCookieString r val h' = (Ok r1, h1) ->
        forall k v,
          contents h1 (Cookies r1) !! k = Some v -> free_of (ascii_of_nat 34) v = true)
  /\ (forall key val,
        exists r1 h1,
          WithCookie r key val h' = (Ok r1, h1)
          /\ contents h1 (Cookies r1) !! key = Some val).
Proof.
  pose proof (Parse_reads _ _ _ _ HParse) as Hread.
  pose proof (Parse_valid _ _ _ _ HParse) as Hvalid.
  split; [|split].
  - intros k v. apply (f_equal fCookies) in Hread. cbn in Hread. rewrite Hread.
    destruct (header_map raw !! "Cookie"); [apply cookie_map_values | done].
  - intros val r1 h1 Hcall k v.
    destruct (call_spec (CallWithCookieString val) r h' Hvalid) as (_ & _ & _ & Hres).
    cbn [call] in Hres. rewrite Hcall in Hres.
    destruct (Hres r1 eq_refl) as [Hnew _]. cbn [snd] in Hnew.
    apply (f_equal fCookies) in Hnew. cbn in Hnew. rewrite Hnew.
    apply cookie_map_values.
  - intros key val.
    destruct (call_returns (CallWithCookie key val) r h' Hvalid eq_refl)
      as (r1 & h1 & Hcall & _ & _ & Hnew & _).
    exists r1, h1. split; [exact Hcall|].
    apply (f_equal fCookies) in Hnew. cbn in Hnew.
    by rewrite Hnew, lookup_insert_eq.
Qed.

Lemma cookie_values_are_escaped_but_for_WithCookie_witness :
  exists r h',
    http.Parse cookie_request ∅ = (Ok r, h')
    /\ contents h' (Cookies r) !! "b" = Some "%22x%22"
    /\ exists r1 h1,
         WithCookie r "b" (dquote +:+ "x" +:+ dquote) h' = (Ok r1, h1)
         /\ contents h1 (Cookies r1) !! "b" = Some (dquote +:+ "x" +:+ dquote).
Proof.
  eexists _, _. split; [reflexivity|]. split; [reflexivity|].
  refine (proj2 (proj2 (cookie_values_are_escaped_but_for_WithCookie
                          cookie_request ∅ _ _ _)) "b" (dquote +:+ "x" +:+ dquote)).
  reflexivity.
Defined.

(** X20. On a raw request without an empty line (no two CRLF in a row) the
    body that [Parse] returns is the raw request without its first three
    bytes: the index -1 of the missing separator plus its length 4. *)
Theorem Parse_body_without_empty_line
    (raw : string) (h : store) (r : Request) (h' : store)
    (Hnone : find raw twoRns = None)
    (HParse : http.Parse raw h = (Ok r, h')) :
  Body r = drop 3 raw.
Proof.
  pose proof (Parse_reads _ _ _ _ HParse) as Hread.
  apply (f_equal fBody) in Hread. unfold read, parsed in Hread.
  cbn [fBody] in Hread. rewrite Hread.
  unfold Index. by rewrite Hnone.
Qed.

Lemma Parse_body_without_empty_line_witness :
  exists r h',
    http.Parse "GET /a HTTP/1.1" ∅ = (Ok r, h') /\ Body r = " /a HTTP/1.1".
Proof.
  eexists _, _. split; [reflexivity|].
  refine (Parse_body_without_empty_line "GET /a HTTP/1.1" ∅ _ _ _ _); reflexivity.
Defined.

(** X21. Of the header lines of a raw request that have the same name, the
    last one gives the value in the parsed request; a name that no header
    line has is not among the headers, and neither is [Cookie]. *)
Theorem parsed_header_is_its_last_line
    (raw : string) (h : store) (r : Request) (h' : store)
    (before after : list string) (line : string)
    (HParse : http.Parse raw h = (Ok r, h'))
    (Hlines : header_lines raw = before ++ line :: after)
    (Hlast : Forall (fun l => (header_entry l).1 <> (header_entry line).1) after)
    (Hname : (header_entry line).1 <> "Cookie") :
  contents h' (Headers r) !! (header_entry line).1 = Some (header_entry line).2
  /\ contents h' (Headers r) !! "Cookie" = None
  /\ (forall name,
        Forall (fun l => (header_entry l).1 <> name) (header_lines raw) ->
        contents h' (Headers r) !! name = None).
Proof.
  pose proof (Parse_reads _ _ _ _ HParse) as Hread.
  apply (f_equal fHeaders) in Hread. cbn in Hread. rewrite Hread.
  split; [|split].
  - rewrite lookup_delete_ne by done.
    unfold header_map. rewrite Hlines, map_app. cbn [map].
    apply (entries_map_last _ _ (header_entry line)).
    by apply Forall_fmap.
  - apply lookup_delete_eq.
  - intros name Hnone.
    destruct (decide (name = "Cookie")) as [->|Hne]; [apply lookup_delete_eq|].
    rewrite lookup_delete_ne by done.
    unfold header_map. apply entries_map_none. by apply Forall_fmap.
Qed.

Lemma parsed_header_is_its_last_line_witness :
  let raw := "GET / HTTP/1.1" +:+ crlf +:+ "A: 1" +:+ crlf +:+ "A: 2" +:+ crlf +:+ crlf in
  exists r h',
    http.Parse raw ∅ = (Ok r, h')
    /\ contents h' (Headers r) !! "A" = Some "2"
    /\ contents h' (Headers r) !! "Cookie" = None
    /\ (forall name,
          Forall (fun l => (header_entry l).1 <> name) (header_lines raw) ->
          contents h' (Headers r) !! name = None).
Proof.
  intros raw. eexists _, _. split; [reflexivity|].
  refine (parsed_header_is_its_last_line raw ∅ _ _ ["A: 1"] [] "A: 2" _ _ _ _);
    [reflexivity | reflexivity | constructor | discriminate].
Defined.

(** ** The table of the settings *)

Section TableFacts.

Implicit Types (e : cliargs.entry) (es : list cliargs.entry) (out lns : list string).

Lemma length_repeat_loop n s :
  String.length (repeat_loop n s) = (n * String.length s)%nat.
Proof. induction n as [|n IH]; simpl; [done|]. by rewrite str_length_app, IH. Qed.

Lemma foldl_Println lns out :
  foldl (fun out ln => cliargs.Println ln out) out lns = out ++ lns.
Proof.
  revert out; induction lns as [|ln lns IH]; intros out; simpl.
  - by rewrite app_nil_r.
  - rewrite IH. unfold cliargs.Println. by rewrite <- app_assoc.
Qed.

Lemma table_loop_spec es (m : nat) lns :
  cliargs.table_loop es (Z.of_nat m) lns
  = if forallb cliargs.fits es
    then inr (Z.of_nat (Nat.max m (max_list (String.length <$> map cliargs.row es))),
              lns ++ map cliargs.row es)
    else inl cliargs.NegativeRepeatCount.
Proof.
  revert m lns; induction es as [|e es IH]; intros m lns.
  - simpl. by rewrite Nat.max_0_r, app_nil_r.
  - cbn [cliargs.table_loop forallb map fmap list_fmap max_list].
    unfold Repeat, cliargs.keyLen, cliargs.fits at 1, len.
    rewrite str_length_app. cbn [String.length].
    destruct (Nat.leb_spec (String.length (cliargs.key e)) 16) as [Hle|Hgt].
    + destruct (Z.ltb_spec (18 - Z.of_nat (2 + String.length (cliargs.key e))) 0);
        [lia|].
      replace (Z.to_nat (18 - Z.of_nat (2 + String.length (cliargs.key e))))
        with (16 - String.length (cliargs.key e))%nat by lia.
      assert ((("  " +:+ cliargs.key e)
               +:+ repeat_loop (16 - String.length (cliargs.key e)) " ")
              +:+ (":  " +:+ cliargs.val e) = cliargs.row e) as ->.
      { unfold cliargs.row. by rewrite !str_app_assoc. }
      cbn [andb].
      destruct (Z.gtb_spec (Z.of_nat (String.length (cliargs.row e))) (Z.of_nat m)).
      * rewrite IH. destruct (forallb cliargs.fits es); [|done].
        rewrite <- app_assoc. f_equal. f_equal. unfold id. lia.
      * rewrite IH. destruct (forallb cliargs.fits es); [|done].
        rewrite <- app_assoc. f_equal. f_equal. unfold id. lia.
    + by destruct (Z.ltb_spec (18 - Z.of_nat (2 + String.length (cliargs.key e))) 0);
        [|lia].
Qed.

Lemma printTable_spec es out :
  cliargs.printTable es out
  = if forallb cliargs.fits es
    then (out ++ [cliargs.bar_of (map cliargs.row es)] ++ map cliargs.row es
              ++ [cliargs.bar_of (map cliargs.row es); EmptyString], None)
    else (out, Some cliargs.NegativeRepeatCount).
Proof.
  unfold cliargs.printTable. change 0 with (Z.of_nat 0).
  rewrite (table_loop_spec es 0 []).
  destruct (forallb cliargs.fits es); [|done].
  rewrite Nat.max_0_l. unfold Repeat.
  destruct (Z.ltb_spec (Z.of_nat (max_list (String.length <$> map cliargs.row es)) + 2) 0);
    [lia|].
  replace (Z.to_nat (Z.of_nat (max_list (String.length <$> map cliargs.row es)) + 2))
    with (max_list (String.length <$> map cliargs.row es) + 2)%nat by lia.
  fold (cliargs.bar_of (map cliargs.row es)).
  unfold cliargs.Println. rewrite foldl_Println. cbn [app].
  f_equal. by rewrite <- !app_assoc.
Qed.

Lemma row_length e :
  cliargs.fits e = true ->
  String.length (cliargs.row e) = (21 + String.length (cliargs.val e))%nat.
Proof.
  unfold cliargs.fits, cliargs.row. intros Hfit%Nat.leb_le.
  rewrite !str_length_app, length_repeat_loop. simpl. lia.
Qed.

Lemma row_colon e :
  cliargs.fits e = true -> drop 18 (cliargs.row e) = ":  " +:+ cliargs.val e.
Proof.
  unfold cliargs.fits. intros Hfit%Nat.leb_le.
  assert (cliargs.row e
          = ("  " +:+ cliargs.key e
             +:+ repeat_loop (16 - String.length (cliargs.key e)) " ")
            +:+ (":  " +:+ cliargs.val e)) as ->.
  { unfold cliargs.row. by rewrite !str_app_assoc. }
  replace 18%nat
    with (String.length ("  " +:+ cliargs.key e
                         +:+ repeat_loop (16 - String.length (cliargs.key e)) " ")).
  - apply str_drop_app.
  - rewrite !str_length_app, length_repeat_loop. simpl. lia.
Qed.

End TableFacts.

(** X22. [printTable] panics exactly when a key is longer than 16 bytes,
    and then prints nothing. Otherwise it prints a bar, one row for each
    entry in their order, the same bar and an empty line; in every row the
    colon is at byte 18, after the key and its padding, and the bar is two
    bytes longer than the longest row. *)
Theorem printTable_rows_and_bars (es : list cliargs.entry) (out : list string) :
  cliargs.printTable es out
  = (if forallb cliargs.fits es
     then (out ++ [cliargs.bar_of (map cliargs.row es)] ++ map cliargs.row es
               ++ [cliargs.bar_of (map cliargs.row es); EmptyString], None)
     else (out, Some cliargs.NegativeRepeatCount))
  /\ (forall e,
        cliargs.fits e = true ->
        drop 18 (cliargs.row e) = ":  " +:+ cliargs.val e
        /\ String.length (cliargs.row e) = (21 + String.length (cliargs.val e))%nat)
  /\ String.length (cliargs.bar_of (map cliargs.row es))
     = (max_list (String.length <$> map cliargs.row es) + 2)%nat.
Proof.
  split; [apply printTable_spec|]. split.
  - intros e Hfit. split; [by apply row_colon | by apply row_length].
  - unfold cliargs.bar_of. rewrite length_repeat_loop. simpl. lia.
Qed.

(** X23. [PrintInfo] prints the banner first. Without a request file it
    then panics on the index 0 of an empty slice, with the banner alone
    printed. With one it never panics, its keys being shorter than 16
    bytes: it prints the table of the target, the first request file, the
    report directory when it is not empty, and the threads unless only
    probing. *)
Theorem PrintInfo_output (args : cliargs.Args) (reportDir : string) (out : list string) :
  cliargs.PrintInfo args reportDir out
  = match cliargs.RequestFiles args with
    | [] => (cliargs.PrintBanner out, Some (cliargs.Runtime (IndexOutOfRange 0 0)))
    | file :: _ =>
        let rows :=
          map cliargs.row
            ([ {| cliargs.key := "Target"; cliargs.val := cliargs.Host args |};
               {| cliargs.key := "Request file"; cliargs.val := file |} ]
             ++ (if String.eqb reportDir EmptyString then []
                 else [ {| cliargs.key := "Report dir"; cliargs.val := reportDir |} ])
             ++ (if cliargs.ProbeOnly args then []
                 else [ {| cliargs.key := "Threads";
                           cliargs.val := Itoa (cliargs.Threads args) |} ])) in
        (cliargs.PrintBanner out ++ [cliargs.bar_of rows] ++ rows
           ++ [cliargs.bar_of rows; EmptyString], None)
    end.
Proof.
  unfold cliargs.PrintInfo.
  destruct (cliargs.RequestFiles args) as [|file files]; [done|].
  change (index (file :: files) 0) with (Ok file). cbv beta iota.
  rewrite printTable_spec.
  by destruct (String.eqb reportDir EmptyString), (cliargs.ProbeOnly args).
Qed.

(** ** The response as text *)

Section ResponseText.

Implicit Types (z : Z) (c : ascii) (p q : string).

Lemma Itoa_inj z z' : Itoa z = Itoa z' -> z = z'.
Proof.
  assert (forall z, NilZero.int_of_string (Itoa z) = Some (Z.to_int z)) as Hisi.
  { intros x. apply NilZero.isi; destruct x as [|a|a]; simpl; try done;
      intros [= H]; by apply DecimalPos.Unsigned.to_uint_nonnil in H. }
  intros H. apply (f_equal NilZero.int_of_string) in H.
  rewrite !Hisi in H. injection H as H.
  apply (f_equal Z.of_int) in H. by rewrite !DecimalZ.of_to in H.
Qed.

Lemma Itoa_chars c z :
  is_digit c = false -> c <> "-"%char -> free_of c (Itoa z) = true.
Proof.
  intros Hc Hminus. destruct z as [|a|a].
  - by apply Itoa_free.
  - by apply Itoa_free.
  - change (Itoa (Z.neg a)) with (String "-" (Itoa (Z.pos a))).
    cbn [free_of]. rewrite Itoa_free by done.
    by destruct (Ascii.eqb_spec c "-").
Qed.

Lemma app_sep_inj c p q p' q' :
  free_of c p = true -> free_of c p' = true ->
  p +:+ String c q = p' +:+ String c q' -> p = p' /\ q = q'.
Proof.
  revert p'; induction p as [|a p IH]; intros [|a' p']; simpl.
  - by intros _ _ [= ->].
  - intros _ [Hne _]%andb_prop [= <- _]. by rewrite Ascii.eqb_refl in Hne.
  - intros [Hne _]%andb_prop _ [= -> _]. by rewrite Ascii.eqb_refl in Hne.
  - intros [_ Hp]%andb_prop [_ Hp']%andb_prop [= -> H].
    destruct (IH p' Hp Hp' H) as [-> ->]. done.
Qed.

End ResponseText.

(** X24. The text of a response tells its code and its length, and nothing
    of its raw bytes: two responses have the same text exactly when they
    have the same code and the same length. *)
Theorem Response_String_tells_code_and_length (res res' : Response) :
  Response_String res = Response_String res'
  <-> Code res = Code res' /\ Length res = Length res'.
Proof.
  split.
  - unfold Response_String. intros H. simpl in H.
    injection H as H.
    apply app_sep_inj in H as [Hcode H]; [|by apply Itoa_chars..].
    injection H as H.
    apply app_sep_inj in H as [Hlen _]; [|by apply Itoa_chars..].
    split; by apply Itoa_inj.
  - unfold Response_String. by intros [-> ->].
Qed.
